(** * terragen: Diamond-Square terrain generator with isometric view fitting

    A shallow embedding of [terragen.c] and the properties of its
    generator, elevation statistics, classifier and view fitter.

    Numbers.  C [int] values are [Z] (every index of the program stays
    below [2 * ITERATIONS], so no wrap-around is involved).  A finite C
    [float] is an exact rational [Q]: rounding and overflow are not
    modelled.  Where the program divides by a value that can be zero, the
    IEEE special values are explicit (type [float] below), with the IEEE
    rules for division by zero, for arithmetic on infinities and for
    comparisons with NaN. *)

From Stdlib Require Import ZArith QArith Qpower Qminmax List Bool.
From Stdlib Require Import Lia Lqa Psatz SpecFloat.
Import ListNotations.

Local Open Scope Z_scope.

(** ** Constants of the program *)

Definition ITERATIONS_257 : Z := 257.
Definition INITIAL_HEIGHT : Q := 50.
Definition SCREEN_MARGIN : Z := 50.
Definition SCREEN_WIDTH : Z := 800.
Definition SCREEN_HEIGHT : Z := 700.
Definition UI_HEIGHT : Z := 90.

Record Color : Type := mkColor { red : Z; green : Z; blue : Z; alpha : Z }.

Definition COLOR_WATER : Color := mkColor 30 90 180 255.
Definition COLOR_SAND : Color := mkColor 210 180 140 255.
Definition COLOR_GRASS : Color := mkColor 50 150 50 255.
Definition COLOR_ROCK : Color := mkColor 120 100 80 255.
Definition COLOR_SNOW : Color := mkColor 240 240 255 255.

(** ** Single-precision values with the IEEE special values *)

Inductive float : Type :=
| FNaN : float
| FInf : bool -> float          (* [FInf true] is minus infinity *)
| FFin : Q -> float.

Definition Qeqb0 (q : Q) : bool := Qeq_bool q 0.
Definition Qneg (q : Q) : bool := negb (Qle_bool 0 q).
Definition Qltb (a b : Q) : bool := negb (Qle_bool b a).

(** [a / b].  A zero divisor is the positive zero, which is what a
    difference [x - x] evaluates to in the default rounding mode. *)
Definition Fdiv (a b : float) : float :=
  match a, b with
  | FNaN, _ | _, FNaN => FNaN
  | FInf _, FInf _ => FNaN
  | FInf s, FFin y => FInf (xorb s (Qneg y))
  | FFin x, FInf _ => FFin 0
  | FFin x, FFin y =>
      if Qeqb0 y then (if Qeqb0 x then FNaN else FInf (Qneg x))
      else FFin (x / y)
  end.

Definition Fmul (a b : float) : float :=
  match a, b with
  | FNaN, _ | _, FNaN => FNaN
  | FInf s, FInf t => FInf (xorb s t)
  | FInf s, FFin y => if Qeqb0 y then FNaN else FInf (xorb s (Qneg y))
  | FFin x, FInf t => if Qeqb0 x then FNaN else FInf (xorb (Qneg x) t)
  | FFin x, FFin y => FFin (x * y)
  end.

Definition Fadd (a b : float) : float :=
  match a, b with
  | FNaN, _ | _, FNaN => FNaN
  | FInf s, FInf t => if Bool.eqb s t then FInf s else FNaN
  | FInf s, FFin _ => FInf s
  | FFin _, FInf t => FInf t
  | FFin x, FFin y => FFin (x + y)
  end.

Definition Fopp (a : float) : float :=
  match a with
  | FNaN => FNaN
  | FInf s => FInf (negb s)
  | FFin x => FFin (- x)
  end.

Definition Fsub (a b : float) : float := Fadd a (Fopp b).

(** [a < b]: false as soon as one side is NaN. *)
Definition Flt (a b : float) : bool :=
  match a, b with
  | FNaN, _ | _, FNaN => false
  | FInf s, FInf t => s && negb t
  | FInf s, FFin _ => s
  | FFin _, FInf t => negb t
  | FFin x, FFin y => Qltb x y
  end.

(** [fminf]: a NaN argument is treated as missing data. *)
Definition fminf (a b : float) : float :=
  match a, b with
  | FNaN, _ => b
  | _, FNaN => a
  | _, _ => if Flt b a then b else a
  end.

Definition is_finite (a : float) : bool :=
  match a with FFin _ => true | _ => false end.

(** ** Counted loops

    [for (i = start; i < bound; i += step)] with [step > 0] runs its body
    at [start], [start + step], ... as long as the index is below [bound];
    [for_range] lists these indices ([for_range_unfold] below is the loop's
    own unfolding) and [for_loop] threads the state through them.  Every
    step of the program is positive: 1 in the scans, and [length > 1] or
    [half = length / 2 >= 1] inside the generation loop. *)

Fixpoint count_from (n : nat) (i step : Z) : list Z :=
  match n with
  | O => []
  | S n' => i :: count_from n' (i + step) step
  end.

Definition trip_count (start bound step : Z) : nat :=
  Z.to_nat ((bound - start + step - 1) / step).

Definition for_range (start bound step : Z) : list Z :=
  count_from (trip_count start bound step) start step.

Definition for_loop {S : Type} (start bound step : Z)
    (body : Z -> S -> S) (s : S) : S :=
  fold_left (fun s i => body i s) (for_range start bound step) s.

(** ** Program state *)

Record globals : Type := mkGlobals {
  terrain : Z -> Z -> Q;
  min_height : Q;
  max_height : Q;
  rand_calls : nat            (* position in the stream behind [rand()] *)
}.

Definition store (t : Z -> Z -> Q) (x y : Z) (v : Q) : Z -> Z -> Q :=
  fun a b => if (a =? x) && (b =? y) then v else t a b.

Definition set_terrain (g : globals) (x y : Z) (v : Q) : globals :=
  mkGlobals (store (terrain g) x y v) (min_height g) (max_height g)
            (rand_calls g).

Definition set_min (g : globals) (v : Q) : globals :=
  mkGlobals (terrain g) v (max_height g) (rand_calls g).

Definition set_max (g : globals) (v : Q) : globals :=
  mkGlobals (terrain g) (min_height g) v (rand_calls g).

(** The grid as the loader leaves it: a C global array starts zeroed. *)
Definition initial_globals : globals :=
  mkGlobals (fun _ _ => 0%Q) 0%Q 0%Q O.

Section Generator.

(** Grid side, [ITERATIONS] in the source (257 there; 65 and 129 are the
    other documented choices). *)
Variable ITERATIONS : Z.

(** The C library: [RAND_MAX], the sequence of results of [rand()], and
    the value of [powf(2.0f, -ROUGHNESS)]. *)
Variable RAND_MAX : Z.
Variable rand : nat -> Z.
Variable decay : Q.

Definition noise_of (r : Z) (amplitude : Q) : Q :=
  ((inject_Z r / inject_Z RAND_MAX * 2 - 1) * amplitude)%Q.

Definition calculate_noise (amplitude : Q) (g : globals) : Q * globals :=
  (noise_of (rand (rand_calls g)) amplitude,
   mkGlobals (terrain g) (min_height g) (max_height g) (S (rand_calls g))).

Definition reset_canvas_corners (g : globals) : globals :=
  let g := set_terrain g 0 0 0%Q in
  let g := set_terrain g 0 (ITERATIONS - 1) 0%Q in
  let g := set_terrain g (ITERATIONS - 1) 0 0%Q in
  set_terrain g (ITERATIONS - 1) (ITERATIONS - 1) 0%Q.

(** Body of the square step's inner loop. *)
Definition square_body (length half : Z) (amplitude : Q) (x y : Z)
    (g : globals) : globals :=
  let t := terrain g in
  let average :=
    ((t x y + t (x + length)%Z y + t x (y + length)%Z
      + t (x + length)%Z (y + length)%Z) / 4)%Q in
  let (n, g') := calculate_noise amplitude g in
  set_terrain g' (x + half) (y + half) (average + n)%Q.

(** The four guarded neighbour reads of the diamond step: the running
    [sum] and [count]. *)
Definition diamond_sum_count (t : Z -> Z -> Q) (half x y : Z) : Q * Z :=
  let sum := 0%Q in
  let count := 0 in
  let (sum, count) :=
    if x >=? half then ((sum + t (x - half)%Z y)%Q, count + 1)
    else (sum, count) in
  let (sum, count) :=
    if x + half <? ITERATIONS then ((sum + t (x + half)%Z y)%Q, count + 1)
    else (sum, count) in
  let (sum, count) :=
    if y >=? half then ((sum + t x (y - half)%Z)%Q, count + 1)
    else (sum, count) in
  let (sum, count) :=
    if y + half <? ITERATIONS then ((sum + t x (y + half)%Z)%Q, count + 1)
    else (sum, count) in
  (sum, count).

(** Body of the diamond step's inner loop.  [sum / count] is evaluated
    only with [count >= 1], as shown below for every visited cell. *)
Definition diamond_body (half : Z) (amplitude : Q) (x y : Z)
    (g : globals) : globals :=
  let (sum, count) := diamond_sum_count (terrain g) half x y in
  let (n, g') := calculate_noise amplitude g in
  set_terrain g' x y (sum / inject_Z count + n)%Q.

Definition square_step (length half : Z) (amplitude : Q)
    (g : globals) : globals :=
  for_loop 0 (ITERATIONS - 1) length (fun x g =>
    for_loop 0 (ITERATIONS - 1) length (fun y g =>
      square_body length half amplitude x y g) g) g.

Definition diamond_step (length half : Z) (amplitude : Q)
    (g : globals) : globals :=
  for_loop 0 ITERATIONS half (fun x g =>
    for_loop (Z.rem (x + half) length) ITERATIONS length (fun y g =>
      diamond_body half amplitude x y g) g) g.

(** One pass of the [while] body; the new [length] and [amplitude] are
    computed by the loop below. *)
Definition iteration (length : Z) (amplitude : Q) (g : globals) : globals :=
  let half := Z.quot length 2 in
  diamond_step length half amplitude (square_step length half amplitude g).

(** [while (length > 1) { ... }]: [None] when [fuel] passes do not reach
    the exit.  The result carries the final [length] and [amplitude]. *)
Fixpoint generate_loop (fuel : nat) (length : Z) (amplitude : Q)
    (g : globals) : option (Z * Q * globals) :=
  if length >? 1 then
    match fuel with
    | O => None
    | S fuel' =>
        generate_loop fuel' (Z.quot length 2) (amplitude * decay)%Q
                      (iteration length amplitude g)
    end
  else Some (length, amplitude, g).

Definition generate_fuel : nat := Z.to_nat ITERATIONS.

Definition generate_terrain (g : globals) : option globals :=
  let length := ITERATIONS - 1 in
  let amplitude := INITIAL_HEIGHT in
  let g := set_max (set_min g 0%Q) 0%Q in
  option_map snd (generate_loop generate_fuel length amplitude g).

Definition min_max_body (x y : Z) (g : globals) : globals :=
  let g :=
    if Qltb (terrain g x y) (min_height g)
    then set_min g (terrain g x y) else g in
  if Qltb (max_height g) (terrain g x y)
  then set_max g (terrain g x y) else g.

Definition calculate_min_max_height (g : globals) : globals :=
  let g := set_min g (terrain g 0 0) in
  let g := set_max g (terrain g 0 0) in
  for_loop 0 ITERATIONS 1 (fun x g =>
    for_loop 0 ITERATIONS 1 (fun y g => min_max_body x y g) g) g.

(** The sequence run at start-up and on every SPACE key press, up to the
    elevation statistics. *)
Definition regenerate (g : globals) : option globals :=
  option_map calculate_min_max_height
             (generate_terrain (reset_canvas_corners g)).

End Generator.

(** ** Elevation classifier *)

Definition calculate_normalized_height (height max_alt min_alt : Q) : float :=
  let range := (max_alt - min_alt)%Q in
  let normalized := Fdiv (FFin (height - min_alt)%Q) (FFin range) in
  normalized.

Definition calculate_height_color (height max_alt min_alt : Q) : Color :=
  let normalized := calculate_normalized_height height max_alt min_alt in
  if Flt normalized (FFin (2 # 10)) then COLOR_SNOW
  else if Flt normalized (FFin (35 # 100)) then COLOR_ROCK
  else if Flt normalized (FFin (65 # 100)) then COLOR_GRASS
  else if Flt normalized (FFin (85 # 100)) then COLOR_SAND
  else COLOR_WATER.

(** The band table as the specification words it, on a normalized
    elevation [t]. *)
Definition band_of_normalized (t : Q) : Color :=
  if Qltb t (20 # 100) then COLOR_SNOW
  else if Qltb t (35 # 100) then COLOR_ROCK
  else if Qltb t (65 # 100) then COLOR_GRASS
  else if Qltb t (85 # 100) then COLOR_SAND
  else COLOR_WATER.

(** ** Isometric projection and view fitting *)

Record Vector2 : Type := mkVector2 { vx : Q; vy : Q }.

Record bounds : Type := mkBounds {
  min_x : Q; max_x : Q; min_y : Q; max_y : Q
}.

Record view : Type := mkView {
  render_scale : float;
  offset_x : float;
  offset_y : float
}.

Section View.

Variable ITERATIONS : Z.

(** [cosf(ang_rot)], [sinf(ang_rot)] and [sinf(ang_iso)] for the two fixed
    angles of the program (45 and 30 degrees). *)
Variable cos_rot sin_rot sin_iso : Q.

Definition isometric_projection (x y z : Q) : Vector2 :=
  let x_rot := (x * cos_rot - y * sin_rot)%Q in
  let y_rot := (x * sin_rot + y * cos_rot)%Q in
  mkVector2 x_rot (y_rot * sin_iso - z)%Q.

Definition project_vertex (t : Z -> Z -> Q) (x y : Z) : Vector2 :=
  isometric_projection (inject_Z x) (inject_Z y) (t x y).

Definition bounds_body (t : Z -> Z -> Q) (x y : Z) (b : bounds) : bounds :=
  let p := project_vertex t x y in
  let b := if Qltb (vx p) (min_x b)
           then mkBounds (vx p) (max_x b) (min_y b) (max_y b) else b in
  let b := if Qltb (max_x b) (vx p)
           then mkBounds (min_x b) (vx p) (min_y b) (max_y b) else b in
  let b := if Qltb (vy p) (min_y b)
           then mkBounds (min_x b) (max_x b) (vy p) (max_y b) else b in
  if Qltb (max_y b) (vy p)
  then mkBounds (min_x b) (max_x b) (min_y b) (vy p) else b.

(** First pass of [calculate_view_parameters]. *)
Definition projected_bounds (t : Z -> Z -> Q) : bounds :=
  let b := mkBounds 1000000000 (-1000000000) 1000000000 (-1000000000) in
  for_loop 0 ITERATIONS 1 (fun y b =>
    for_loop 0 ITERATIONS 1 (fun x b => bounds_body t x y b) b) b.

Definition terrain_width (b : bounds) : Q := (max_x b - min_x b)%Q.
Definition terrain_height (b : bounds) : Q := (max_y b - min_y b)%Q.

Definition available_space_x : Q :=
  inject_Z (SCREEN_WIDTH - 2 * SCREEN_MARGIN).
Definition available_space_y : Q :=
  inject_Z ((SCREEN_HEIGHT - UI_HEIGHT) - 2 * SCREEN_MARGIN).

(** Second part of [calculate_view_parameters], from the bounds on. *)
Definition view_of_bounds (b : bounds) : view :=
  let scale_x := Fdiv (FFin available_space_x) (FFin (terrain_width b)) in
  let scale_y := Fdiv (FFin available_space_y) (FFin (terrain_height b)) in
  let render_scale := fminf scale_x scale_y in
  let scaled_width := Fmul (FFin (terrain_width b)) render_scale in
  let scaled_height := Fmul (FFin (terrain_height b)) render_scale in
  mkView render_scale
    (Fsub (Fdiv (Fsub (FFin (inject_Z SCREEN_WIDTH)) scaled_width) (FFin 2))
          (Fmul (FFin (min_x b)) render_scale))
    (Fsub (Fadd (Fdiv (Fsub (FFin (inject_Z (SCREEN_HEIGHT - UI_HEIGHT)))
                            scaled_height) (FFin 2))
                (FFin (inject_Z UI_HEIGHT)))
          (Fmul (FFin (min_y b)) render_scale)).

Definition calculate_view_parameters (t : Z -> Z -> Q) : view :=
  view_of_bounds (projected_bounds t).

(** A vertex as [draw_terrain_3d] hands it to [DrawLineV]: scale and
    offset, then the vertical flip. *)
Definition screen_vertex (v : view) (t : Z -> Z -> Q) (x y : Z)
    : float * float :=
  let p_base := project_vertex t x y in
  let px := Fadd (Fmul (FFin (vx p_base)) (render_scale v)) (offset_x v) in
  let py := Fadd (Fmul (FFin (vy p_base)) (render_scale v)) (offset_y v) in
  (px, Fsub (FFin (inject_Z SCREEN_HEIGHT)) py).

End View.

(** * Properties *)

(** ** Counted loops *)

Lemma count_from_In (n : nat) (a s i : Z) :
  In i (count_from n a s) <->
  exists k : Z, 0 <= k < Z.of_nat n /\ i = a + k * s.
Proof.
  revert a. induction n as [|n IH]; intros a; simpl.
  - split; [tauto | intros (k & Hk & _); lia].
  - rewrite IH. split.
    + intros [Ha | (k & Hk & Hi)].
      * exists 0. lia.
      * exists (k + 1). lia.
    + intros (k & Hk & Hi).
      destruct (Z.eq_dec k 0) as [-> | Hne].
      * left. lia.
      * right. exists (k - 1). lia.
Qed.

Lemma trip_count_spec (a b s k : Z) :
  0 < s -> 0 <= k ->
  (k < Z.of_nat (trip_count a b s) <-> a + k * s < b).
Proof.
  intros Hs Hk. unfold trip_count.
  set (q := (b - a + s - 1) / s).
  assert (Hq : s * q <= b - a + s - 1 < s * (q + 1)).
  { pose proof (Z.mul_div_le (b - a + s - 1) s Hs).
    pose proof (Z.mul_succ_div_gt (b - a + s - 1) s Hs).
    unfold q. lia. }
  destruct (Z_lt_le_dec q 0) as [Hneg | Hpos].
  - replace (Z.of_nat (Z.to_nat q)) with 0 by lia. nia.
  - rewrite Z2Nat.id by lia. nia.
Qed.

Lemma for_range_In (a b s i : Z) :
  0 < s ->
  (In i (for_range a b s) <-> exists k : Z, 0 <= k /\ i = a + k * s /\ i < b).
Proof.
  intros Hs. unfold for_range. rewrite count_from_In. split.
  - intros (k & Hk & ->). exists k. repeat split; try lia.
    apply trip_count_spec; lia.
  - intros (k & Hk & -> & Hlt). exists k. split; [|reflexivity].
    split; [lia|]. apply trip_count_spec; lia.
Qed.

(** The list of indices is the loop: test, body at [a], then on from
    [a + s]. *)
Lemma for_range_unfold (a b s : Z) :
  0 < s ->
  for_range a b s = if a <? b then a :: for_range (a + s) b s else [].
Proof.
  intros Hs. unfold for_range.
  destruct (Z.ltb_spec a b) as [Hlt | Hge].
  - assert (Hn : Z.of_nat (trip_count a b s)
                 = Z.of_nat (trip_count (a + s) b s) + 1).
    { pose proof (trip_count_spec a b s) as H1.
      pose proof (trip_count_spec (a + s) b s) as H2.
      set (n1 := Z.of_nat (trip_count a b s)) in *.
      set (n2 := Z.of_nat (trip_count (a + s) b s)) in *.
      assert (0 <= n1) by (unfold n1; lia).
      assert (0 <= n2) by (unfold n2; lia).
      destruct (Z_lt_le_dec n1 (n2 + 1)) as [Hc | Hc].
      - destruct (Z.eq_dec n1 (n2 + 1)); [assumption|].
        assert (Hk : 0 <= n2 - 1 \/ n2 = 0) by lia.
        destruct Hk as [Hk | Hk].
        + pose proof (proj1 (H2 (n2 - 1) Hs Hk) ltac:(lia)).
          pose proof (proj2 (H1 n1 Hs ltac:(lia))). nia.
        + pose proof (proj2 (H1 0 Hs ltac:(lia))). lia.
      - destruct (Z.eq_dec n1 (n2 + 1)); [assumption|].
        pose proof (proj1 (H1 (n1 - 1) Hs ltac:(lia)) ltac:(lia)).
        pose proof (proj2 (H2 (n1 - 2) Hs ltac:(lia))). nia. }
    replace (trip_count a b s) with (S (trip_count (a + s) b s)) by lia.
    reflexivity.
  - assert (Hn : trip_count a b s = O).
    { pose proof (trip_count_spec a b s 0 Hs ltac:(lia)). lia. }
    rewrite Hn. reflexivity.
Qed.

Lemma for_loop_unfold {S : Type} (a b s : Z) (body : Z -> S -> S) (st : S) :
  0 < s ->
  for_loop a b s body st =
  if a <? b then for_loop (a + s) b s body (body a st) else st.
Proof.
  intros Hs. unfold for_loop. rewrite (for_range_unfold a b s Hs).
  destruct (a <? b); reflexivity.
Qed.

(** ** Comparisons on rationals *)

Lemma Qltb_lt (a b : Q) : Qltb a b = true <-> (a < b)%Q.
Proof.
  unfold Qltb. rewrite negb_true_iff, <- not_true_iff_false, Qle_bool_iff.
  split; [apply Qnot_le_lt | apply Qlt_not_le].
Qed.

Lemma Qltb_ge (a b : Q) : Qltb a b = false <-> (b <= a)%Q.
Proof.
  unfold Qltb. rewrite negb_false_iff. apply Qle_bool_iff.
Qed.

Lemma Qneg_lt (q : Q) : Qneg q = true <-> (q < 0)%Q.
Proof. unfold Qneg. apply (Qltb_lt q 0). Qed.

Lemma Qeqb0_true (q : Q) : Qeqb0 q = true <-> (q == 0)%Q.
Proof. unfold Qeqb0. apply Qeq_bool_iff. Qed.

Lemma Qeqb0_false (q : Q) : Qeqb0 q = false <-> ~ (q == 0)%Q.
Proof.
  rewrite <- Qeqb0_true. destruct (Qeqb0 q); split; congruence.
Qed.

Lemma Qltb_compat (a b c d : Q) :
  (a == b)%Q -> (c == d)%Q -> Qltb a c = Qltb b d.
Proof.
  intros Hab Hcd.
  destruct (Qltb b d) eqn:E.
  - apply Qltb_lt. apply Qltb_lt in E. lra.
  - apply Qltb_ge. apply Qltb_ge in E. lra.
Qed.

Lemma inject_Z_pos (z : Z) : 0 < z -> (0 < inject_Z z)%Q.
Proof. intros Hz. unfold Qlt, inject_Z. simpl. lia. Qed.

Lemma inject_Z_le (a b : Z) : a <= b -> (inject_Z a <= inject_Z b)%Q.
Proof. intros Hab. unfold Qle, inject_Z. simpl. lia. Qed.

(** ** Elevation classifier *)

Lemma normalized_finite (height max_alt min_alt : Q) :
  (min_alt < max_alt)%Q ->
  calculate_normalized_height height max_alt min_alt
  = FFin ((height - min_alt) / (max_alt - min_alt))%Q.
Proof.
  intros Hlt. unfold calculate_normalized_height, Fdiv.
  replace (Qeqb0 (max_alt - min_alt)) with false; [reflexivity|].
  symmetry. apply Qeqb0_false. lra.
Qed.


Lemma height_color_bands (height max_alt min_alt : Q) :
  (min_alt < max_alt)%Q ->
  calculate_height_color height max_alt min_alt
  = band_of_normalized ((height - min_alt) / (max_alt - min_alt))%Q.
Proof.
  intros Hlt. unfold calculate_height_color.
  rewrite (normalized_finite _ _ _ Hlt). unfold band_of_normalized, Flt.
  set (t := ((height - min_alt) / (max_alt - min_alt))%Q).
  assert (H : Qltb t (2 # 10) = Qltb t (20 # 100))
    by (apply Qltb_compat; reflexivity).
  rewrite H. reflexivity.
Qed.



(** *** The classifier on IEEE single precision

    The same two functions on the standard library's model of IEEE
    arithmetic at the format of a C [float] (24 bits of precision,
    exponents up to 128), rounding included.  It is used to check the
    special-value rules of the type [float] above on the very operations
    the classifier performs. *)

Module Binary32.

Definition prec : Z := 24.
Definition emax : Z := 128.

Definition sub : spec_float -> spec_float -> spec_float := SFsub prec emax.
Definition div : spec_float -> spec_float -> spec_float := SFdiv prec emax.
Definition of_Z (z : Z) : spec_float := binary_normalize prec emax z 0 false.

(** The literals [0.2f], [0.35f], [0.65f] and [0.85f]. *)
Definition lit_0_2 : spec_float := S754_finite false 13421773 (-26).
Definition lit_0_35 : spec_float := S754_finite false 11744051 (-25).
Definition lit_0_65 : spec_float := S754_finite false 10905190 (-24).
Definition lit_0_85 : spec_float := S754_finite false 14260634 (-24).

Definition calculate_normalized_height (height max_alt min_alt : spec_float)
    : spec_float :=
  let range := sub max_alt min_alt in
  let normalized := div (sub height min_alt) range in
  normalized.

Definition calculate_height_color (height max_alt min_alt : spec_float)
    : Color :=
  let normalized := calculate_normalized_height height max_alt min_alt in
  if SFltb normalized lit_0_2 then COLOR_SNOW
  else if SFltb normalized lit_0_35 then COLOR_ROCK
  else if SFltb normalized lit_0_65 then COLOR_GRASS
  else if SFltb normalized lit_0_85 then COLOR_SAND
  else COLOR_WATER.

(** Zero or finite: neither an infinity nor NaN. *)
Definition is_number (x : spec_float) : bool :=
  match x with
  | S754_zero _ | S754_finite _ _ _ => true
  | _ => false
  end.

Lemma literals_valid :
  forallb (valid_binary prec emax) [lit_0_2; lit_0_35; lit_0_65; lit_0_85]
  = true.
Proof. reflexivity. Qed.

Lemma sub_self (x : spec_float) :
  is_number x = true -> sub x x = S754_zero false.
Proof.
  destruct x as [s | s | | s m e]; try discriminate; intros _.
  - destruct s; reflexivity.
  - unfold sub, SFsub. rewrite Z.sub_diag. reflexivity.
Qed.

Lemma div_by_zero (d : spec_float) :
  div d (S754_zero false)
  = match d with
    | S754_nan | S754_zero _ => S754_nan
    | S754_infinity s | S754_finite s _ _ => S754_infinity s
    end.
Proof. destruct d as [s | s | | s m e]; try destruct s; reflexivity. Qed.

(** On a flat range the single-precision classifier divides by zero: the
    normalized elevation is NaN or an infinity, according to the difference
    [d = height - alt] it computed, and the band is Snow when [d] is
    negative and Water otherwise. *)
Lemma classify_flat_range_binary32 (height alt : spec_float) :
  is_number alt = true ->
  let d := sub height alt in
  calculate_normalized_height height alt alt
  = match d with
    | S754_nan | S754_zero _ => S754_nan
    | S754_infinity s | S754_finite s _ _ => S754_infinity s
    end /\
  calculate_height_color height alt alt
  = if SFltb d (S754_zero false) then COLOR_SNOW else COLOR_WATER.
Proof.
  intros Halt d.
  assert (Hn : calculate_normalized_height height alt alt
               = div d (S754_zero false)).
  { unfold calculate_normalized_height. rewrite (sub_self alt Halt).
    reflexivity. }
  split; [rewrite Hn; apply div_by_zero|].
  unfold calculate_height_color. rewrite Hn, div_by_zero.
  destruct d as [s | s | | s m e]; try destruct s; reflexivity.
Qed.

(** The special-value rules of [float] are those of the IEEE model: a
    single-precision value read as a [float], and the two operations whose
    special cases the classifier and the fitter meet. *)
Definition value (x : spec_float) : float :=
  match x with
  | S754_zero _ => FFin 0
  | S754_infinity s => FInf s
  | S754_nan => FNaN
  | S754_finite s m e => FFin (inject_Z (cond_Zopp s (Zpos m)) * 2 ^ e)
  end.

Lemma finite_value_sign (s : bool) (m : positive) (e : Z) :
  let q := (inject_Z (cond_Zopp s (Zpos m)) * 2 ^ e)%Q in
  Qeqb0 q = false /\ Qneg q = s.
Proof.
  intros q.
  assert (Hp : (0 < 2 ^ e)%Q) by (apply Qpower_0_lt; reflexivity).
  assert (Hm : (0 < inject_Z (Zpos m))%Q) by reflexivity.
  destruct s; unfold q, cond_Zopp.
  - assert (Hq : (inject_Z (- Zpos m) * 2 ^ e < 0)%Q).
    { rewrite inject_Z_opp. nra. }
    split; [apply Qeqb0_false; lra | apply Qneg_lt; assumption].
  - assert (Hq : (0 < inject_Z (Zpos m) * 2 ^ e)%Q) by nra.
    split; [apply Qeqb0_false; lra|].
    unfold Qneg. apply negb_false_iff, Qle_bool_iff. lra.
Qed.

Lemma Fdiv_by_zero_agrees (x : spec_float) :
  value (div x (S754_zero false)) = Fdiv (value x) (FFin 0).
Proof.
  rewrite div_by_zero.
  destruct x as [s | s | | s m e]; try reflexivity.
  - destruct s; reflexivity.
  - cbn [value]. unfold Fdiv.
    destruct (finite_value_sign s m e) as [H0 Hs]. cbv zeta in H0, Hs.
    change (Qeqb0 0) with true. cbv iota. rewrite H0, Hs. reflexivity.
Qed.

Lemma Flt_special_agrees (x y : spec_float) :
  is_number x = false \/ is_number y = false ->
  SFltb x y = Flt (value x) (value y).
Proof.
  intros [H | H];
    destruct x as [s | s | | s m e], y as [s' | s' | | s' m' e'];
    try discriminate H; try reflexivity;
    try (destruct s; reflexivity); try (destruct s'; reflexivity);
    destruct s, s'; reflexivity.
Qed.

Example flat_zero_terrain :
  calculate_normalized_height (of_Z 0) (of_Z 0) (of_Z 0) = S754_nan /\
  calculate_height_color (of_Z 0) (of_Z 0) (of_Z 0) = COLOR_WATER.
Proof. split; reflexivity. Qed.

Example three_tenths :
  calculate_normalized_height (of_Z 3) (of_Z 10) (of_Z 0)
  = S754_finite false 10066330 (-25) /\
  calculate_height_color (of_Z 3) (of_Z 10) (of_Z 0) = COLOR_ROCK.
Proof. split; vm_compute; reflexivity. Qed.

(** The fitter's division on a zero extent. *)
Example zero_extent_scale :
  div (of_Z 510) (sub (of_Z 7) (of_Z 7)) = S754_infinity false.
Proof. reflexivity. Qed.

End Binary32.

Lemma normalized_flat (height alt : Q) :
  calculate_normalized_height height alt alt
  = if Qeqb0 (height - alt) then FNaN else FInf (Qneg (height - alt)).
Proof.
  unfold calculate_normalized_height, Fdiv.
  replace (Qeqb0 (alt - alt)) with true; [reflexivity|].
  symmetry. apply Qeqb0_true. ring.
Qed.

(** C5, as the program behaves.  With [max = min] the classifier divides by
    a zero range: the normalized elevation is NaN when the elevation equals
    that bound and an infinity of the sign of [elevation - min] otherwise.
    No condition is signalled; every threshold test on NaN or on plus
    infinity is false, so the band is Water unless the elevation is below
    the bound, where minus infinity gives Snow. *)
Theorem classify_flat_range (elevation alt : Q) :
  calculate_normalized_height elevation alt alt
  = (if Qeqb0 (elevation - alt) then FNaN
     else FInf (Qneg (elevation - alt))) /\
  is_finite (calculate_normalized_height elevation alt alt) = false /\
  calculate_height_color elevation alt alt
  = if Qltb elevation alt then COLOR_SNOW else COLOR_WATER.
Proof.
  split; [apply normalized_flat|].
  unfold calculate_height_color. rewrite (normalized_flat elevation alt).
  destruct (Qeqb0 (elevation - alt)) eqn:E0.
  - apply Qeqb0_true in E0.
    split; [reflexivity|].
    replace (Qltb elevation alt) with false; [reflexivity|].
    symmetry. apply Qltb_ge. lra.
  - apply Qeqb0_false in E0.
    split; [reflexivity|].
    destruct (Qneg (elevation - alt)) eqn:En.
    + apply Qneg_lt in En.
      replace (Qltb elevation alt) with true; [reflexivity|].
      symmetry. apply Qltb_lt. lra.
    + replace (Qltb elevation alt) with false; [reflexivity|].
      symmetry. apply Qltb_ge.
      unfold Qneg in En. apply negb_false_iff, Qle_bool_iff in En. lra.
Qed.

(** C5 as the specification states it does not hold: on a flat terrain at
    elevation 0 the normalization is the division 0 / 0, whose result is
    NaN, and that NaN is what the threshold tests receive; the same holds
    on IEEE single precision. *)
Lemma classify_flat_range_divides_by_zero :
  Qeqb0 (0 - 0) = true /\
  calculate_normalized_height 0 0 0 = FNaN /\
  is_finite (calculate_normalized_height 0 0 0) = false /\
  Binary32.sub (Binary32.of_Z 0) (Binary32.of_Z 0) = S754_zero false /\
  Binary32.calculate_normalized_height (Binary32.of_Z 0) (Binary32.of_Z 0)
                                       (Binary32.of_Z 0) = S754_nan.
Proof. repeat split. Qed.

(** ** The neighbours of a diamond cell *)

(** The specification's reading of the diamond step: the four cells at
    distance [half] in the cardinal directions, those of them that lie
    inside the grid, and their average. *)
Definition in_grid (n : Z) (c : Z * Z) : bool :=
  (0 <=? fst c) && (fst c <? n) && (0 <=? snd c) && (snd c <? n).

Definition cardinal_neighbors (half x y : Z) : list (Z * Z) :=
  [(x - half, y); (x + half, y); (x, y - half); (x, y + half)].

Definition neighbors_in_grid (n half x y : Z) : list (Z * Z) :=
  filter (in_grid n) (cardinal_neighbors half x y).

Definition neighbor_average (n : Z) (t : Z -> Z -> Q) (half x y : Z) : Q :=
  let cells := neighbors_in_grid n half x y in
  (fold_left (fun s c => s + t (fst c) (snd c)) cells 0
   / inject_Z (Z.of_nat (List.length cells)))%Q.

Lemma diamond_sum_count_neighbors (n : Z) (t : Z -> Z -> Q) (half x y : Z) :
  0 <= half -> 0 <= x < n -> 0 <= y < n ->
  diamond_sum_count n t half x y
  = (fold_left (fun s c => (s + t (fst c) (snd c))%Q)
               (neighbors_in_grid n half x y) 0%Q,
     Z.of_nat (List.length (neighbors_in_grid n half x y))).
Proof.
  intros Hh Hx Hy.
  unfold diamond_sum_count, neighbors_in_grid, cardinal_neighbors, in_grid.
  cbn [filter fst snd].
  assert (E1 : (0 <=? x - half) && (x - half <? n) && (0 <=? y) && (y <? n)
               = (x >=? half)) by lia.
  assert (E2 : (0 <=? x + half) && (x + half <? n) && (0 <=? y) && (y <? n)
               = (x + half <? n)) by lia.
  assert (E3 : (0 <=? x) && (x <? n) && (0 <=? y - half) && (y - half <? n)
               = (y >=? half)) by lia.
  assert (E4 : (0 <=? x) && (x <? n) && (0 <=? y + half) && (y + half <? n)
               = (y + half <? n)) by lia.
  rewrite E1, E2, E3, E4.
  destruct (x >=? half), (x + half <? n), (y >=? half), (y + half <? n);
    reflexivity.
Qed.

(** The cells the diamond loops visit lie in the grid. *)
Lemma diamond_visit_in_grid (n length x y : Z) :
  1 < length ->
  In x (for_range 0 n (Z.quot length 2)) ->
  In y (for_range (Z.rem (x + Z.quot length 2) length) n length) ->
  1 <= Z.quot length 2 /\ 0 <= x < n /\ 0 <= y < n.
Proof.
  intros Hl Hx Hy.
  assert (Hh : 1 <= Z.quot length 2).
  { rewrite Z.quot_div_nonneg by lia.
    apply Z.div_le_lower_bound; lia. }
  apply for_range_In in Hx; [|lia].
  apply for_range_In in Hy; [|lia].
  destruct Hx as (i & Hi & -> & Hxn). destruct Hy as (j & Hj & -> & Hyn).
  assert (0 <= i * Z.quot length 2) by nia.
  assert (0 <= j * length) by nia.
  assert (0 <= Z.rem (0 + i * Z.quot length 2 + Z.quot length 2) length).
  { apply Z.rem_nonneg; lia. }
  lia.
Qed.

(** C9.  In every pass of the generation loop ([1 < length <= N - 1],
    [half = length / 2]) and at every cell the diamond loops visit, one of
    the four guards holds, and the divisor [count] is at least 1. *)
Theorem diamond_count_pos (n length x y : Z) (t : Z -> Z -> Q) :
  1 < length <= n - 1 ->
  In x (for_range 0 n (Z.quot length 2)) ->
  In y (for_range (Z.rem (x + Z.quot length 2) length) n length) ->
  let half := Z.quot length 2 in
  1 <= half /\
  (x >=? half) || (x + half <? n) || (y >=? half) || (y + half <? n) = true /\
  1 <= snd (diamond_sum_count n t half x y).
Proof.
  intros Hl Hx Hy half.
  destruct (diamond_visit_in_grid n length x y) as (Hh & Hxr & Hyr);
    [lia | assumption | assumption |].
  fold half in Hh.
  assert (H2 : 2 * half <= length).
  { unfold half. rewrite Z.quot_div_nonneg by lia.
    apply Z.mul_div_le. lia. }
  split; [assumption|].
  assert (Hg : (x >=? half) || (x + half <? n) = true) by lia.
  split.
  - rewrite orb_true_iff in Hg. destruct Hg as [-> | ->];
      rewrite ?orb_true_r; reflexivity.
  - unfold diamond_sum_count.
    destruct (x >=? half), (x + half <? n), (y >=? half), (y + half <? n);
      simpl in *; try lia; discriminate.
Qed.

(** ** Loops that write one cell per pass *)

Lemma store_same (t : Z -> Z -> Q) (x y : Z) (v : Q) :
  store t x y v x y = v.
Proof. unfold store. rewrite !Z.eqb_refl. reflexivity. Qed.

Lemma store_other (t : Z -> Z -> Q) (x y : Z) (v : Q) (a b : Z) :
  (a, b) <> (x, y) -> store t x y v a b = t a b.
Proof.
  intros Hne. unfold store.
  destruct (Z.eqb_spec a x) as [-> | _]; [|reflexivity].
  destruct (Z.eqb_spec b y) as [-> | _]; [|reflexivity].
  congruence.
Qed.

Lemma nested_fold {S : Type} (f : Z -> Z -> S -> S) (ys : Z -> list Z)
    (xs : list Z) (s : S) :
  fold_left (fun s x => fold_left (fun s y => f x y s) (ys x) s) xs s
  = fold_left (fun s c => f (fst c) (snd c) s)
              (flat_map (fun x => map (pair x) (ys x)) xs) s.
Proof.
  revert s. induction xs as [|x xs IH]; intros s; [reflexivity|].
  simpl. rewrite fold_left_app, IH. f_equal.
  generalize (ys x) s. intros l. induction l as [|y l IHl]; intros s0;
    [reflexivity | simpl; apply IHl].
Qed.

Section CellLoop.

Variable body : Z * Z -> globals -> globals.
Variable target : Z * Z -> Z * Z.
Variable value : Z * Z -> globals -> Q.

Hypothesis body_terrain : forall c g,
  terrain (body c g)
  = store (terrain g) (fst (target c)) (snd (target c)) (value c g).

Definition run_cells (cells : list (Z * Z)) (g : globals) : globals :=
  fold_left (fun g c => body c g) cells g.

Lemma run_cells_snoc (cells : list (Z * Z)) (c : Z * Z) (g : globals) :
  run_cells (cells ++ [c]) g = body c (run_cells cells g).
Proof. unfold run_cells. rewrite fold_left_app. reflexivity. Qed.

(** A cell that is no pass's target keeps its value. *)
Lemma run_cells_frame (cells : list (Z * Z)) (g : globals) (a b : Z) :
  (forall c, In c cells -> target c <> (a, b)) ->
  terrain (run_cells cells g) a b = terrain g a b.
Proof.
  induction cells as [|c cells IH] using rev_ind; intros Hne;
    [reflexivity|].
  rewrite run_cells_snoc, body_terrain, store_other.
  - apply IH. intros c' Hc'. apply Hne, in_or_app. left. assumption.
  - intros Heq. apply (Hne c); [apply in_or_app; right; left; reflexivity|].
    rewrite (surjective_pairing (target c)). symmetry. exact Heq.
Qed.

(** An invariant of the grid that no write breaks, and a property that
    every written value has under it, hold after the loop: the invariant
    of the grid, the property of every target. *)
Lemma run_cells_post (Inv : (Z -> Z -> Q) -> Prop)
    (Post : Z * Z -> Q -> Prop) (cells : list (Z * Z)) (g : globals) :
  (forall c t v, In c cells -> Inv t ->
                 Inv (store t (fst (target c)) (snd (target c)) v)) ->
  (forall c g, In c cells -> Inv (terrain g) ->
               Post (target c) (value c g)) ->
  Inv (terrain g) ->
  Inv (terrain (run_cells cells g)) /\
  forall c, In c cells ->
    Post (target c)
         (terrain (run_cells cells g) (fst (target c)) (snd (target c))).
Proof.
  induction cells as [|c cells IH] using rev_ind; intros Hpres Hval Hinv.
  - split; [assumption | intros c []].
  - destruct IH as [IHinv IHpost].
    + intros c' t v Hc'. apply Hpres, in_or_app. left. assumption.
    + intros c' g' Hc'. apply Hval, in_or_app. left. assumption.
    + assumption.
    + assert (Hc : In c (cells ++ [c]))
        by (apply in_or_app; right; left; reflexivity).
      rewrite run_cells_snoc, body_terrain. split.
      * apply Hpres; assumption.
      * intros c' Hc'.
        destruct (Z.eq_dec (fst (target c')) (fst (target c))) as [E1|E1];
          [destruct (Z.eq_dec (snd (target c')) (snd (target c)))
             as [E2|E2]|].
        -- rewrite E1, E2, store_same.
           replace (target c') with (target c)
             by (rewrite (surjective_pairing (target c)),
                   (surjective_pairing (target c')); congruence).
           apply Hval; assumption.
        -- rewrite store_other by congruence.
           apply in_app_or in Hc'. destruct Hc' as [Hc' | [<- | []]];
             [apply IHpost; assumption | congruence].
        -- rewrite store_other by congruence.
           apply in_app_or in Hc'. destruct Hc' as [Hc' | [<- | []]];
             [apply IHpost; assumption | congruence].
Qed.

End CellLoop.

(** ** The two steps as loops over cells *)

Definition square_cells (n length : Z) : list (Z * Z) :=
  flat_map (fun x => map (pair x) (for_range 0 (n - 1) length))
           (for_range 0 (n - 1) length).

Definition diamond_cells (n length half : Z) : list (Z * Z) :=
  flat_map (fun x => map (pair x)
                         (for_range (Z.rem (x + half) length) n length))
           (for_range 0 n half).

Section Passes.

Variable n : Z.
Variable RAND_MAX : Z.
Variable rand : nat -> Z.
Variable decay : Q.

Definition square_target (half : Z) (c : Z * Z) : Z * Z :=
  (fst c + half, snd c + half).

Definition square_value (length : Z) (amplitude : Q) (c : Z * Z)
    (g : globals) : Q :=
  let t := terrain g in
  let x := fst c in
  let y := snd c in
  ((t x y + t (x + length)%Z y + t x (y + length)%Z
    + t (x + length)%Z (y + length)%Z) / 4
   + noise_of RAND_MAX (rand (rand_calls g)) amplitude)%Q.

Definition diamond_value (half : Z) (amplitude : Q) (c : Z * Z)
    (g : globals) : Q :=
  let sc := diamond_sum_count n (terrain g) half (fst c) (snd c) in
  (fst sc / inject_Z (snd sc)
   + noise_of RAND_MAX (rand (rand_calls g)) amplitude)%Q.

Lemma square_body_terrain (length half : Z) (amplitude : Q) (c : Z * Z)
    (g : globals) :
  terrain (square_body RAND_MAX rand length half amplitude (fst c) (snd c) g)
  = store (terrain g) (fst (square_target half c))
          (snd (square_target half c)) (square_value length amplitude c g).
Proof. reflexivity. Qed.

Lemma diamond_body_terrain (half : Z) (amplitude : Q) (c : Z * Z)
    (g : globals) :
  terrain (diamond_body n RAND_MAX rand half amplitude (fst c) (snd c) g)
  = store (terrain g) (fst c) (snd c) (diamond_value half amplitude c g).
Proof.
  unfold diamond_body, diamond_value.
  destruct (diamond_sum_count n (terrain g) half (fst c) (snd c)).
  reflexivity.
Qed.

Lemma square_step_cells (length half : Z) (amplitude : Q) (g : globals) :
  square_step n RAND_MAX rand length half amplitude g
  = run_cells (fun c => square_body RAND_MAX rand length half amplitude
                                      (fst c) (snd c))
              (square_cells n length) g.
Proof. unfold square_step, for_loop. apply nested_fold. Qed.

Lemma diamond_step_cells (length half : Z) (amplitude : Q) (g : globals) :
  diamond_step n RAND_MAX rand length half amplitude g
  = run_cells (fun c => diamond_body n RAND_MAX rand half amplitude
                                       (fst c) (snd c))
              (diamond_cells n length half) g.
Proof.
  unfold diamond_step, for_loop.
  apply (nested_fold
           (fun x y g => diamond_body n RAND_MAX rand half amplitude x y g)
           (fun x => for_range (Z.rem (x + half) length) n length)).
Qed.

(** *** Where the cells of a pass lie

    A pass has [length = 2 * half] with [half >= 1], and [length] divides
    the side [n - 1] of the grid. *)

Definition pass_shape (length half m : Z) : Prop :=
  1 <= half /\ length = 2 * half /\ n - 1 = length * m.

Lemma square_cells_In (length half m : Z) (c : Z * Z) :
  pass_shape length half m ->
  (In c (square_cells n length) <->
   exists i j, 0 <= i < m /\ 0 <= j < m /\ c = (length * i, length * j)).
Proof.
  intros (Hh & HL & Hn). unfold square_cells.
  rewrite in_flat_map. split.
  - intros (x & Hx & Hc). apply in_map_iff in Hc.
    destruct Hc as (y & <- & Hy).
    apply for_range_In in Hx; [|lia]. apply for_range_In in Hy; [|lia].
    destruct Hx as (i & Hi & -> & Hxn). destruct Hy as (j & Hj & -> & Hyn).
    exists i, j. repeat split; try lia; try nia.
    f_equal; lia.
  - intros (i & j & Hi & Hj & ->). exists (length * i). split.
    + apply for_range_In; [lia|]. exists i. nia.
    + apply in_map. apply for_range_In; [lia|]. exists j. nia.
Qed.

Lemma rem_odd_multiple (length half i : Z) :
  1 <= half -> length = 2 * half -> 0 <= i ->
  Z.rem (length * i + half) length = half.
Proof.
  intros Hh HL Hi.
  rewrite Z.rem_mod_nonneg by nia.
  symmetry. apply (Z.mod_unique _ _ i); [left|]; lia.
Qed.

Lemma rem_even_multiple (length half i : Z) :
  1 <= half -> length = 2 * half -> 0 <= i ->
  Z.rem (length * i + half + half) length = 0.
Proof.
  intros Hh HL Hi.
  rewrite Z.rem_mod_nonneg by nia.
  symmetry. apply (Z.mod_unique _ _ (i + 1)); [left|]; lia.
Qed.

(** The diamond loops visit the cells with one coordinate on the coarse
    grid and the other half way between two of its lines. *)
Definition diamond_cell (length half : Z) (c : Z * Z) : Prop :=
  0 <= fst c <= n - 1 /\ 0 <= snd c <= n - 1 /\
  exists i j, c = (length * i, length * j + half) \/
              c = (length * i + half, length * j).

Lemma diamond_cells_In (length half m : Z) (c : Z * Z) :
  pass_shape length half m ->
  (In c (diamond_cells n length half) <-> diamond_cell length half c).
Proof.
  intros (Hh & HL & Hn). unfold diamond_cells, diamond_cell.
  rewrite in_flat_map. split.
  - intros (x & Hx & Hc). apply in_map_iff in Hc.
    destruct Hc as (y & <- & Hy).
    apply for_range_In in Hx; [|lia].
    destruct Hx as (k & Hk & -> & Hxn). cbn [fst snd].
    destruct (Z.Even_or_Odd k) as [[i ->] | [i ->]].
    + replace (0 + 2 * i * half) with (length * i) in * by lia.
      rewrite rem_odd_multiple in Hy by lia.
      apply for_range_In in Hy; [|lia].
      destruct Hy as (j & Hj & -> & Hyn).
      split; [nia|]. split; [nia|].
      exists i, j. left. f_equal; lia.
    + replace (0 + (2 * i + 1) * half) with (length * i + half) in * by lia.
      rewrite rem_even_multiple in Hy by lia.
      apply for_range_In in Hy; [|lia].
      destruct Hy as (j & Hj & -> & Hyn).
      split; [nia|]. split; [nia|].
      exists i, j. right. f_equal; lia.
  - intros (Hx & Hy & i & j & [-> | ->]); simpl in Hx, Hy.
    + exists (length * i). split.
      * apply for_range_In; [lia|]. exists (2 * i). nia.
      * apply in_map. rewrite rem_odd_multiple by nia.
        apply for_range_In; [lia|]. exists j. nia.
    + exists (length * i + half). split.
      * apply for_range_In; [lia|]. exists (2 * i + 1). nia.
      * apply in_map. rewrite rem_even_multiple by nia.
        apply for_range_In; [lia|]. exists j. nia.
Qed.

(** *** Bounds on one written value *)

Lemma noise_bound (r : Z) (amplitude : Q) :
  0 < RAND_MAX -> 0 <= r <= RAND_MAX -> (0 <= amplitude)%Q ->
  (- amplitude <= noise_of RAND_MAX r amplitude <= amplitude)%Q.
Proof.
  intros HM Hr Ha. unfold noise_of.
  set (u := (inject_Z r / inject_Z RAND_MAX)%Q).
  assert (HMq : (0 < inject_Z RAND_MAX)%Q)
    by (apply inject_Z_pos; assumption).
  assert (Hu : (0 <= u <= 1)%Q).
  { unfold u. split.
    - apply Qle_shift_div_l; [assumption|].
      rewrite Qmult_0_l. apply (inject_Z_le 0 r). lia.
    - apply Qle_shift_div_r; [assumption|].
      rewrite Qmult_1_l. apply inject_Z_le. lia. }
  split; nra.
Qed.

Lemma sum_bound {A : Type} (f : A -> Q) (M : Q) (l : list A) (acc : Q) :
  (forall c, In c l -> - M <= f c <= M)%Q ->
  (acc - M * inject_Z (Z.of_nat (List.length l))
   <= fold_left (fun s c => s + f c) l acc
   <= acc + M * inject_Z (Z.of_nat (List.length l)))%Q.
Proof.
  revert acc. induction l as [|c l IH]; intros acc Hb.
  - simpl. unfold inject_Z. lra.
  - cbn [fold_left List.length].
    assert (Hc : (- M <= f c <= M)%Q) by (apply Hb; left; reflexivity).
    specialize (IH (acc + f c)%Q (fun c' H => Hb c' (or_intror H))).
    rewrite Nat2Z.inj_succ. unfold Z.succ. rewrite inject_Z_plus.
    change (inject_Z 1) with 1%Q. lra.
Qed.

Lemma average_bound {A : Type} (f : A -> Q) (M : Q) (l : list A) :
  l <> [] ->
  (forall c, In c l -> - M <= f c <= M)%Q ->
  (- M <= fold_left (fun s c => s + f c) l 0
          / inject_Z (Z.of_nat (List.length l)) <= M)%Q.
Proof.
  intros Hne Hb.
  pose proof (sum_bound f M l 0%Q Hb) as Hs.
  assert (Hlen : (0 < inject_Z (Z.of_nat (List.length l)))%Q).
  { apply inject_Z_pos. destruct l; [congruence | simpl; lia]. }
  split.
  - apply Qle_shift_div_l; [assumption | lra].
  - apply Qle_shift_div_r; [assumption | lra].
Qed.

(** *** The cells of the coarse grid and the centres of its squares *)

Definition inside (a b : Z) : Prop := 0 <= a <= n - 1 /\ 0 <= b <= n - 1.

Definition coarse_cell (length : Z) (a b : Z) : Prop :=
  inside a b /\ exists i j, a = length * i /\ b = length * j.

Definition center_cell (length half : Z) (a b : Z) : Prop :=
  inside a b /\ exists i j, a = length * i + half /\ b = length * j + half.

Definition bounded_on (R : Z -> Z -> Prop) (B : Q) (t : Z -> Z -> Q) : Prop :=
  forall a b, R a b -> (- B <= t a b <= B)%Q.

Lemma half_off_grid (half i j : Z) :
  1 <= half -> 2 * half * i <> 2 * half * j + half.
Proof.
  intros Hh Heq.
  assert (H : half * (2 * (i - j) - 1) = 0) by lia.
  apply Z.mul_eq_0 in H. lia.
Qed.

Lemma square_target_not_coarse (length half m : Z) (c : Z * Z) (a b : Z) :
  pass_shape length half m ->
  In c (square_cells n length) -> coarse_cell length a b ->
  (a, b) <> (fst (square_target half c), snd (square_target half c)).
Proof.
  intros Hs Hc (_ & i & j & -> & ->).
  apply (square_cells_In length half m c Hs) in Hc.
  destruct Hs as (Hh & -> & Hn).
  destruct Hc as (i' & j' & _ & _ & ->). simpl. intros Heq.
  injection Heq as H1 _. exact (half_off_grid half i i' Hh H1).
Qed.

Lemma square_step_bound (length half m : Z) (amplitude B : Q)
    (g : globals) :
  pass_shape length half m ->
  0 < RAND_MAX -> (forall k, 0 <= rand k <= RAND_MAX) ->
  (0 <= amplitude)%Q ->
  bounded_on (coarse_cell length) B (terrain g) ->
  let g' := square_step n RAND_MAX rand length half amplitude g in
  bounded_on (coarse_cell length) B (terrain g') /\
  bounded_on (center_cell length half) (B + amplitude) (terrain g').
Proof.
  intros Hs HM Hrand Ha Hb g'. unfold g'. rewrite square_step_cells.
  destruct (run_cells_post _ (square_target half)
              (square_value length amplitude)
              (square_body_terrain length half amplitude)
              (bounded_on (coarse_cell length) B)
              (fun _ v => (- (B + amplitude) <= v <= B + amplitude)%Q)
              (square_cells n length) g) as [Hinv Hpost].
  - intros c t v Hc Hinv a b Hab.
    rewrite store_other; [apply Hinv; assumption|].
    apply (square_target_not_coarse length half m); assumption.
  - intros c g0 Hc Hinv.
    apply (square_cells_In length half m c Hs) in Hc.
    destruct Hc as (i & j & Hi & Hj & ->).
    destruct Hs as (Hh & HL & Hn).
    unfold square_value. cbn [fst snd].
    pose proof (noise_bound (rand (rand_calls g0)) amplitude HM
                  (Hrand _) Ha) as Hnoise.
    assert (H1 : coarse_cell length (length * i) (length * j)).
    { split; [split; nia|]. exists i, j. split; reflexivity. }
    assert (H2 : coarse_cell length (length * i + length) (length * j)).
    { split; [split; nia|]. exists (i + 1), j. split; lia. }
    assert (H3 : coarse_cell length (length * i) (length * j + length)).
    { split; [split; nia|]. exists i, (j + 1). split; lia. }
    assert (H4 : coarse_cell length (length * i + length)
                             (length * j + length)).
    { split; [split; nia|]. exists (i + 1), (j + 1). split; lia. }
    apply Hinv in H1, H2, H3, H4.
    unfold Qdiv. change (/ 4)%Q with (1 # 4)%Q. lra.
  - assumption.
  - split; [assumption|].
    intros a b ((Hxa & Hyb) & i & j & -> & ->).
    assert (Hc : In (length * i, length * j) (square_cells n length)).
    { apply (square_cells_In length half m _ Hs).
      destruct Hs as (Hh & HL & Hn).
      exists i, j. repeat split; try reflexivity; nia. }
    apply (Hpost _ Hc).
Qed.

Lemma square_step_frame (length half m : Z) (amplitude : Q) (g : globals)
    (a b : Z) :
  pass_shape length half m -> coarse_cell length a b ->
  terrain (square_step n RAND_MAX rand length half amplitude g) a b
  = terrain g a b.
Proof.
  intros Hs Hab. rewrite square_step_cells.
  apply (run_cells_frame _ (square_target half)
           (square_value length amplitude)
           (square_body_terrain length half amplitude)).
  intros c Hc Heq.
  apply (square_target_not_coarse length half m c a b Hs Hc Hab).
  rewrite Heq. reflexivity.
Qed.

(** *** The diamond step reads coarse cells and centres only *)

Definition even_cell (length half : Z) (a b : Z) : Prop :=
  coarse_cell length a b \/ center_cell length half a b.

Lemma diamond_not_even (length half m : Z) (c : Z * Z) (a b : Z) :
  pass_shape length half m ->
  diamond_cell length half c -> even_cell length half a b ->
  (a, b) <> (fst c, snd c).
Proof.
  intros (Hh & -> & Hn) (_ & _ & i & j & Hc) Hab Heq.
  destruct Hab as [(_ & i' & j' & -> & ->) | (_ & i' & j' & -> & ->)];
    destruct Hc as [-> | ->]; simpl in Heq; injection Heq as H1 H2.
  - exact (half_off_grid half j' j Hh H2).
  - exact (half_off_grid half i' i Hh H1).
  - symmetry in H1. exact (half_off_grid half i i' Hh H1).
  - symmetry in H2. exact (half_off_grid half j j' Hh H2).
Qed.

Lemma diamond_neighbors_even (length half m x y : Z) (c : Z * Z) :
  pass_shape length half m ->
  diamond_cell length half (x, y) ->
  In c (neighbors_in_grid n half x y) ->
  even_cell length half (fst c) (snd c).
Proof.
  intros (Hh & HL & Hn) (Hx & Hy & i & j & Hxy) Hc.
  unfold neighbors_in_grid in Hc. apply filter_In in Hc.
  destruct Hc as [Hc Hin]. unfold in_grid in Hin.
  assert (Hins : inside (fst c) (snd c)) by (unfold inside; lia).
  clear Hin. simpl in Hx, Hy.
  unfold cardinal_neighbors in Hc. simpl in Hc.
  destruct Hxy as [Hxy | Hxy]; injection Hxy as -> ->;
    destruct Hc as [<- | [<- | [<- | [<- | []]]]]; cbn [fst snd] in *.
  - right. split; [assumption|]. exists (i - 1), j. lia.
  - right. split; [assumption|]. exists i, j. lia.
  - left. split; [assumption|]. exists i, j. lia.
  - left. split; [assumption|]. exists i, (j + 1). lia.
  - left. split; [assumption|]. exists i, j. lia.
  - left. split; [assumption|]. exists (i + 1), j. lia.
  - right. split; [assumption|]. exists i, (j - 1). lia.
  - right. split; [assumption|]. exists i, j. lia.
Qed.

Lemma diamond_cell_in_grid (length half m x y : Z) :
  pass_shape length half m -> diamond_cell length half (x, y) ->
  0 <= x < n /\ 0 <= y < n /\ 2 * half <= n - 1.
Proof.
  intros (Hh & HL & Hn) (Hx & Hy & i & j & Hxy). simpl in Hx, Hy.
  split; [lia|]. split; [lia|].
  assert (Hm : 1 <= m).
  { destruct (Z_le_gt_dec m 0) as [Hm0 | Hm1]; [exfalso | lia].
    assert (Hn0 : n - 1 <= 0) by nia.
    destruct Hxy as [E | E]; injection E as -> ->.
    - apply (half_off_grid half 0 j Hh). lia.
    - apply (half_off_grid half 0 i Hh). lia. }
  nia.
Qed.

Lemma diamond_neighbors_nonempty (length half m x y : Z) :
  pass_shape length half m -> diamond_cell length half (x, y) ->
  neighbors_in_grid n half x y <> [].
Proof.
  intros Hs Hc.
  destruct (diamond_cell_in_grid length half m x y Hs Hc) as (Hx & Hy & Hn).
  destruct Hs as (Hh & _ & _).
  unfold neighbors_in_grid, cardinal_neighbors, in_grid. cbn [filter fst snd].
  destruct (Z_le_gt_dec half x) as [Hge | Hlt].
  - replace ((0 <=? x - half) && (x - half <? n) && (0 <=? y) && (y <? n))
      with true by lia. discriminate.
  - replace ((0 <=? x - half) && (x - half <? n) && (0 <=? y) && (y <? n))
      with false by lia.
    replace ((0 <=? x + half) && (x + half <? n) && (0 <=? y) && (y <? n))
      with true by lia. discriminate.
Qed.

Lemma diamond_value_average (length half m : Z) (amplitude : Q)
    (c : Z * Z) (g : globals) :
  pass_shape length half m -> diamond_cell length half c ->
  diamond_value half amplitude c g
  = (neighbor_average n (terrain g) half (fst c) (snd c)
     + noise_of RAND_MAX (rand (rand_calls g)) amplitude)%Q.
Proof.
  intros Hs Hc. destruct c as [x y].
  destruct (diamond_cell_in_grid length half m x y Hs Hc) as (Hx & Hy & _).
  destruct Hs as (Hh & _ & _).
  unfold diamond_value, neighbor_average. cbn [fst snd].
  rewrite diamond_sum_count_neighbors by lia. reflexivity.
Qed.

Definition diamond_run (half : Z) (amplitude : Q) :=
  run_cells (fun c => diamond_body n RAND_MAX rand half amplitude
                                   (fst c) (snd c)).

Lemma diamond_step_post (length half m : Z) (amplitude : Q)
    (Inv : (Z -> Z -> Q) -> Prop) (Post : Z * Z -> Q -> Prop)
    (g : globals) :
  pass_shape length half m ->
  (forall c t v, diamond_cell length half c -> Inv t ->
                 Inv (store t (fst c) (snd c) v)) ->
  (forall c g, diamond_cell length half c -> Inv (terrain g) ->
               Post c (diamond_value half amplitude c g)) ->
  Inv (terrain g) ->
  let g' := diamond_step n RAND_MAX rand length half amplitude g in
  Inv (terrain g') /\
  forall c, diamond_cell length half c ->
            Post c (terrain g' (fst c) (snd c)).
Proof.
  intros Hs Hpres Hval Hinv g'. unfold g'. rewrite diamond_step_cells.
  destruct (run_cells_post _ (fun c => c) (diamond_value half amplitude)
              (diamond_body_terrain half amplitude) Inv Post
              (diamond_cells n length half) g) as [H1 H2].
  - intros c t v Hc. apply Hpres.
    apply (diamond_cells_In length half m c Hs). assumption.
  - intros c g0 Hc. apply Hval.
    apply (diamond_cells_In length half m c Hs). assumption.
  - assumption.
  - split; [assumption|]. intros c Hc. apply H2.
    apply (diamond_cells_In length half m c Hs). assumption.
Qed.

Lemma diamond_step_frame (length half m : Z) (amplitude : Q) (g : globals)
    (a b : Z) :
  pass_shape length half m -> even_cell length half a b ->
  terrain (diamond_step n RAND_MAX rand length half amplitude g) a b
  = terrain g a b.
Proof.
  intros Hs Hab. rewrite diamond_step_cells.
  apply (run_cells_frame _ (fun c => c) (diamond_value half amplitude)
           (diamond_body_terrain half amplitude)).
  intros c Hc Heq.
  apply (diamond_cells_In length half m c Hs) in Hc.
  apply (diamond_not_even length half m c a b Hs Hc Hab).
  rewrite Heq. reflexivity.
Qed.

Lemma diamond_step_bound (length half m : Z) (amplitude M : Q)
    (g : globals) :
  pass_shape length half m ->
  0 < RAND_MAX -> (forall k, 0 <= rand k <= RAND_MAX) ->
  (0 <= amplitude)%Q ->
  bounded_on (even_cell length half) M (terrain g) ->
  let g' := diamond_step n RAND_MAX rand length half amplitude g in
  bounded_on (even_cell length half) M (terrain g') /\
  bounded_on (fun a b => diamond_cell length half (a, b)) (M + amplitude)
             (terrain g').
Proof.
  intros Hs HM Hrand Ha Hb g'.
  destruct (diamond_step_post length half m amplitude
              (bounded_on (even_cell length half) M)
              (fun _ v => (- (M + amplitude) <= v <= M + amplitude)%Q)
              g Hs) as [H1 H2].
  - intros c t v Hc Hinv a b Hab.
    rewrite store_other; [apply Hinv; assumption|].
    apply (diamond_not_even length half m); assumption.
  - intros c g0 Hc Hinv.
    rewrite (diamond_value_average length half m amplitude c g0 Hs Hc).
    destruct c as [x y]. cbn [fst snd].
    pose proof (noise_bound (rand (rand_calls g0)) amplitude HM
                  (Hrand _) Ha) as Hnoise.
    assert (Havg : (- M <= neighbor_average n (terrain g0) half x y <= M)%Q).
    { unfold neighbor_average.
      apply (average_bound (fun c => terrain g0 (fst c) (snd c))).
      - apply (diamond_neighbors_nonempty length half m); assumption.
      - intros c Hc'. apply Hinv.
        apply (diamond_neighbors_even length half m x y); assumption. }
    lra.
  - assumption.
  - split; [exact H1|]. intros a b Hab. exact (H2 (a, b) Hab).
Qed.

(** *** One pass of the loop *)

Lemma fine_cell_cases (length half m a b : Z) :
  pass_shape length half m -> coarse_cell half a b ->
  even_cell length half a b \/ diamond_cell length half (a, b).
Proof.
  intros (Hh & HL & Hn) (Hin & i & j & -> & ->).
  destruct (Z.Even_or_Odd i) as [[i' ->] | [i' ->]];
    destruct (Z.Even_or_Odd j) as [[j' ->] | [j' ->]].
  - left. left. split; [assumption|]. exists i', j'. lia.
  - right. destruct Hin. split; [assumption|]. split; [assumption|].
    exists i', j'. left. f_equal; lia.
  - right. destruct Hin. split; [assumption|]. split; [assumption|].
    exists i', j'. right. f_equal; lia.
  - left. right. split; [assumption|]. exists i', j'. lia.
Qed.

Lemma quot_half (length half m : Z) :
  pass_shape length half m -> Z.quot length 2 = half.
Proof.
  intros (Hh & -> & _). rewrite Z.quot_div_nonneg by lia.
  rewrite Z.mul_comm. apply Z.div_mul. lia.
Qed.

Lemma iteration_bound (length half m : Z) (amplitude B : Q) (g : globals) :
  pass_shape length half m ->
  0 < RAND_MAX -> (forall k, 0 <= rand k <= RAND_MAX) ->
  (0 <= amplitude)%Q ->
  bounded_on (coarse_cell length) B (terrain g) ->
  bounded_on (coarse_cell half) (B + 2 * amplitude)
             (terrain (iteration n RAND_MAX rand length amplitude g)).
Proof.
  intros Hs HM Hrand Ha Hb. unfold iteration.
  rewrite (quot_half length half m Hs).
  destruct (square_step_bound length half m amplitude B g Hs HM Hrand Ha Hb)
    as [Hc1 Hc2].
  set (g1 := square_step n RAND_MAX rand length half amplitude g) in *.
  assert (He : bounded_on (even_cell length half) (B + amplitude)
                          (terrain g1)).
  { intros a b [Hab | Hab].
    - apply Hc1 in Hab. lra.
    - apply Hc2 in Hab. lra. }
  destruct (diamond_step_bound length half m amplitude (B + amplitude) g1
              Hs HM Hrand Ha He) as [Hd1 Hd2].
  intros a b Hab.
  destruct (fine_cell_cases length half m a b Hs Hab) as [Heven | Hdia].
  - apply Hd1 in Heven. lra.
  - apply Hd2 in Hdia. lra.
Qed.

Lemma iteration_frame (length half m : Z) (amplitude : Q) (g : globals)
    (a b : Z) :
  pass_shape length half m -> coarse_cell length a b ->
  terrain (iteration n RAND_MAX rand length amplitude g) a b = terrain g a b.
Proof.
  intros Hs Hab. unfold iteration. rewrite (quot_half length half m Hs).
  rewrite (diamond_step_frame length half m)
    by (assumption || (left; assumption)).
  apply (square_step_frame length half m); assumption.
Qed.

(** *** The loop on a grid of side [2 ^ k + 1] *)

(** [j] passes of the loop body, with the halving of [length] and the decay
    of [amplitude] between them. *)
Fixpoint run_passes (j : nat) (length : Z) (amplitude : Q) (g : globals)
    : Z * Q * globals :=
  match j with
  | O => (length, amplitude, g)
  | S j' =>
      run_passes j' (Z.quot length 2) (amplitude * decay)%Q
                 (iteration n RAND_MAX rand length amplitude g)
  end.

Lemma pow2_quot (j : nat) :
  Z.quot (2 ^ Z.of_nat (S j)) 2 = 2 ^ Z.of_nat j.
Proof.
  rewrite Nat2Z.inj_succ, Z.pow_succ_r by lia.
  rewrite Z.quot_div_nonneg by lia.
  rewrite Z.mul_comm. apply Z.div_mul. lia.
Qed.

Lemma pow2_pos (j : nat) : 0 < 2 ^ Z.of_nat j.
Proof. apply Z.pow_pos_nonneg; lia. Qed.

(** The loop started at [length = 2 ^ j] makes exactly [j] passes: it
    returns their result when the fuel allows [j] passes and runs out of
    fuel otherwise. *)
Lemma generate_loop_pow2 (j fuel : nat) (amplitude : Q) (g : globals) :
  generate_loop n RAND_MAX rand decay fuel (2 ^ Z.of_nat j) amplitude g
  = if (j <=? fuel)%nat
    then Some (run_passes j (2 ^ Z.of_nat j) amplitude g)
    else None.
Proof.
  revert fuel amplitude g. induction j as [|j IH]; intros fuel amplitude g.
  - destruct fuel; reflexivity.
  - assert (Hgt : (2 ^ Z.of_nat (S j) >? 1) = true).
    { pose proof (pow2_pos j). rewrite Nat2Z.inj_succ, Z.pow_succ_r by lia.
      lia. }
    destruct fuel as [|fuel].
    + cbn [generate_loop]. rewrite Hgt. reflexivity.
    + cbn [generate_loop run_passes]. rewrite Hgt, pow2_quot, IH.
      reflexivity.
Qed.

Fixpoint geometric_sum (k : nat) : Q :=
  match k with
  | O => 0
  | S k' => 1 + decay * geometric_sum k'
  end.

Lemma geometric_sum_nonneg (k : nat) :
  (0 <= decay)%Q -> (0 <= geometric_sum k)%Q.
Proof.
  intros Hd. induction k as [|k IH]; simpl; [lra | nra].
Qed.

Lemma run_passes_spec (j : nat) (m : Z) (amplitude B : Q) (g : globals) :
  n - 1 = 2 ^ Z.of_nat j * m ->
  0 < RAND_MAX -> (forall k, 0 <= rand k <= RAND_MAX) ->
  (0 <= amplitude)%Q -> (0 <= decay)%Q ->
  bounded_on (coarse_cell (2 ^ Z.of_nat j)) B (terrain g) ->
  let r := run_passes j (2 ^ Z.of_nat j) amplitude g in
  fst (fst r) = 1 /\
  (snd (fst r) == amplitude * decay ^ Z.of_nat j)%Q /\
  bounded_on (coarse_cell 1) (B + 2 * amplitude * geometric_sum j)
             (terrain (snd r)).
Proof.
  revert m amplitude B g.
  induction j as [|j IH]; intros m amplitude B g Hn HM Hrand Ha Hd Hb.
  - cbn [run_passes fst snd geometric_sum Z.of_nat].
    split; [reflexivity|]. split; [simpl; ring|].
    intros a b Hab. apply Hb in Hab. lra.
  - cbn [run_passes]. rewrite pow2_quot.
    assert (Hs : pass_shape (2 ^ Z.of_nat (S j)) (2 ^ Z.of_nat j) m).
    { pose proof (pow2_pos j). split; [lia|]. split; [|assumption].
      rewrite Nat2Z.inj_succ, Z.pow_succ_r by lia. reflexivity. }
    pose proof (iteration_bound (2 ^ Z.of_nat (S j)) (2 ^ Z.of_nat j) m
                  amplitude B g Hs HM Hrand Ha Hb) as Hb1.
    assert (Hn1 : n - 1 = 2 ^ Z.of_nat j * (2 * m)).
    { rewrite Hn, Nat2Z.inj_succ, Z.pow_succ_r by lia. ring. }
    assert (Ha1 : (0 <= amplitude * decay)%Q) by nra.
    destruct (IH (2 * m) (amplitude * decay)%Q (B + 2 * amplitude)%Q
                 (iteration n RAND_MAX rand (2 ^ Z.of_nat (S j)) amplitude g)
                 Hn1 HM Hrand Ha1 Hd Hb1) as (H1 & H2 & H3).
    split; [exact H1|]. split.
    + rewrite H2. rewrite Nat2Z.inj_succ. unfold Z.succ.
      rewrite Qpower_plus' by lia. simpl. ring.
    + intros a b Hab. apply H3 in Hab. cbn [geometric_sum]. lra.
Qed.

Lemma run_passes_frame (j : nat) (m : Z) (amplitude : Q) (g : globals)
    (a b : Z) :
  n - 1 = 2 ^ Z.of_nat j * m ->
  coarse_cell (2 ^ Z.of_nat j) a b ->
  terrain (snd (run_passes j (2 ^ Z.of_nat j) amplitude g)) a b
  = terrain g a b.
Proof.
  revert m amplitude g.
  induction j as [|j IH]; intros m amplitude g Hn Hab; [reflexivity|].
  cbn [run_passes]. rewrite pow2_quot.
  assert (Hs : pass_shape (2 ^ Z.of_nat (S j)) (2 ^ Z.of_nat j) m).
  { pose proof (pow2_pos j). split; [lia|]. split; [|assumption].
    rewrite Nat2Z.inj_succ, Z.pow_succ_r by lia. reflexivity. }
  rewrite (IH (2 * m)).
  - apply (iteration_frame (2 ^ Z.of_nat (S j)) (2 ^ Z.of_nat j) m);
      assumption.
  - rewrite Hn, Nat2Z.inj_succ, Z.pow_succ_r by lia. ring.
  - destruct Hab as (Hin & i & k & -> & ->). split; [assumption|].
    exists (2 * i), (2 * k).
    rewrite Nat2Z.inj_succ, Z.pow_succ_r by lia. split; ring.
Qed.

(** After [i] of the [k] passes [length] is [2 ^ (k - i)] and [amplitude]
    has been multiplied [i] times by [decay]. *)
Lemma run_passes_locals (i : nat) (d : nat) (amplitude : Q) (g : globals) :
  let r := run_passes i (2 ^ Z.of_nat (i + d)) amplitude g in
  fst (fst r) = 2 ^ Z.of_nat d /\
  (snd (fst r) == amplitude * decay ^ Z.of_nat i)%Q.
Proof.
  revert amplitude g. induction i as [|i IH]; intros amplitude g.
  - cbn [run_passes fst snd Nat.add]. split; [reflexivity | simpl; ring].
  - cbn [run_passes]. change (S i + d)%nat with (S (i + d)).
    rewrite pow2_quot.
    destruct (IH (amplitude * decay)%Q
                 (iteration n RAND_MAX rand (2 ^ Z.of_nat (S (i + d)))
                            amplitude g)) as [H1 H2].
    split; [exact H1|].
    rewrite H2. rewrite Nat2Z.inj_succ. unfold Z.succ.
    rewrite Qpower_plus' by lia. simpl. ring.
Qed.

End Passes.

(** ** Termination of the generation loop *)

Lemma passes_within_fuel (k : nat) :
  (k <=? generate_fuel (2 ^ Z.of_nat k + 1))%nat = true.
Proof.
  apply Nat.leb_le. unfold generate_fuel.
  pose proof (Z.pow_gt_lin_r 2 (Z.of_nat k) ltac:(lia) ltac:(lia)). lia.
Qed.

(** The fuel [generate_terrain] gives the loop is enough on every grid. *)
Lemma generate_loop_total (n RAND_MAX : Z) (rand : nat -> Z) (decay : Q)
    (fuel : nat) (length : Z) (amplitude : Q) (g : globals) :
  length <= Z.of_nat fuel ->
  exists r, generate_loop n RAND_MAX rand decay fuel length amplitude g
            = Some r.
Proof.
  revert length amplitude g.
  induction fuel as [|fuel IH]; intros length amplitude g Hlen.
  - cbn [generate_loop].
    destruct (Z.gtb_spec length 1); [lia | eexists; reflexivity].
  - cbn [generate_loop].
    destruct (Z.gtb_spec length 1); [|eexists; reflexivity].
    apply IH. rewrite Z.quot_div_nonneg by lia.
    assert (length / 2 < length) by (apply Z.div_lt; lia). lia.
Qed.

Lemma generate_terrain_total (n RAND_MAX : Z) (rand : nat -> Z) (decay : Q)
    (g : globals) :
  exists g', generate_terrain n RAND_MAX rand decay g = Some g'.
Proof.
  unfold generate_terrain.
  destruct (generate_loop_total n RAND_MAX rand decay (generate_fuel n)
              (n - 1) INITIAL_HEIGHT (set_max (set_min g 0%Q) 0%Q))
    as [r Hr]; [unfold generate_fuel; lia|].
  rewrite Hr. eexists. reflexivity.
Qed.

(** C8.  On a grid of side [N = 2 ^ k + 1] the generation loop terminates:
    [generate_terrain] returns; started at [length = N - 1] the loop makes
    exactly [k] passes (less fuel than [k] passes does not reach the exit);
    after [i <= k] passes [length] is [2 ^ (k - i)] and [amplitude] is the
    initial amplitude times [decay ^ i], and the loop test [length > 1]
    still holds exactly when [i < k], so the loop is left with
    [length = 1]. *)
Theorem generation_loop_terminates (k i : nat) (RAND_MAX : Z)
    (rand : nat -> Z) (decay : Q) (g : globals) :
  (i <= k)%nat ->
  let n := 2 ^ Z.of_nat k + 1 in
  (exists g', generate_terrain n RAND_MAX rand decay g = Some g') /\
  (forall fuel,
     generate_loop n RAND_MAX rand decay fuel (n - 1) INITIAL_HEIGHT g
     = if (k <=? fuel)%nat
       then Some (run_passes n RAND_MAX rand decay k (n - 1) INITIAL_HEIGHT g)
       else None) /\
  let r := run_passes n RAND_MAX rand decay i (n - 1) INITIAL_HEIGHT g in
  fst (fst r) = 2 ^ Z.of_nat (k - i) /\
  (snd (fst r) == INITIAL_HEIGHT * decay ^ Z.of_nat i)%Q /\
  (fst (fst r) >? 1) = (i <? k)%nat.
Proof.
  intros Hik n.
  assert (Hn : n - 1 = 2 ^ Z.of_nat k) by (unfold n; lia).
  rewrite Hn. split; [|split].
  - unfold generate_terrain. rewrite Hn, generate_loop_pow2.
    unfold n. rewrite passes_within_fuel. eexists. reflexivity.
  - intros fuel. apply generate_loop_pow2.
  - pose proof (run_passes_locals n RAND_MAX rand decay i (k - i)
                  INITIAL_HEIGHT g) as H.
    replace (i + (k - i))%nat with k in H by lia.
    cbv zeta in H. destruct H as [H1 H2].
    cbv zeta. rewrite H1. split; [reflexivity|]. split; [exact H2|].
    destruct (Nat.ltb_spec i k) as [Hlt | Hge].
    + pose proof (pow2_pos (k - i - 1)) as Hp.
      replace (k - i)%nat with (S (k - i - 1)) by lia.
      rewrite Nat2Z.inj_succ, Z.pow_succ_r by lia.
      set (p := 2 ^ Z.of_nat (k - i - 1)) in *. lia.
    + replace (k - i)%nat with O by lia. reflexivity.
Qed.

(** A sample C library for the concrete runs below: a [rand()] stream
    within [0, RAND_MAX] for [RAND_MAX = 32767] and a decay factor. *)
Definition sample_rand (i : nat) : Z := (Z.of_nat i * 7919 + 13) mod 32768.
Definition sample_decay : Q := 435 # 1000.

Lemma sample_rand_range (i : nat) : 0 <= sample_rand i <= 32767.
Proof.
  unfold sample_rand.
  pose proof (Z.mod_pos_bound (Z.of_nat i * 7919 + 13) 32768). lia.
Qed.

Lemma generation_loop_terminates_witness :
  (1 <= 2)%nat /\
  fst (fst (run_passes 5 32767 sample_rand sample_decay 1 4 INITIAL_HEIGHT
                       initial_globals)) = 2 /\
  generate_loop 5 32767 sample_rand sample_decay 1 4 INITIAL_HEIGHT
                initial_globals = None.
Proof.
  assert (H12 : (1 <= 2)%nat) by lia.
  split; [exact H12|].
  destruct (generation_loop_terminates 2 1 32767 sample_rand sample_decay
              initial_globals H12) as (_ & Hloop & Hlen & _).
  split; [exact Hlen | exact (Hloop 1%nat)].
Defined.

(** ** Corner cells *)

Definition corner (n a b : Z) : Prop :=
  (a = 0 \/ a = n - 1) /\ (b = 0 \/ b = n - 1).

Lemma reset_canvas_corners_zero (n : Z) (g : globals) (a b : Z) :
  corner n a b -> terrain (reset_canvas_corners n g) a b = 0%Q.
Proof.
  intros [Ha Hb]. unfold reset_canvas_corners, set_terrain, store. simpl.
  repeat match goal with
         | |- context [Z.eqb ?u ?v] => destruct (Z.eqb_spec u v)
         end; simpl; try reflexivity; exfalso; lia.
Qed.

Lemma corner_coarse (n length m a b : Z) :
  n - 1 = length * m -> 0 <= n - 1 -> corner n a b ->
  coarse_cell n length a b.
Proof.
  intros Hn Hpos [Ha Hb]. split; [unfold inside; lia|].
  exists (if Z.eq_dec a 0 then 0 else m), (if Z.eq_dec b 0 then 0 else m).
  destruct (Z.eq_dec a 0), (Z.eq_dec b 0); lia.
Qed.

Lemma for_loop_invariant {S : Type} (P : S -> Prop) (a b s : Z)
    (body : Z -> S -> S) (st : S) :
  (forall i st, P st -> P (body i st)) -> P st -> P (for_loop a b s body st).
Proof.
  intros Hbody. unfold for_loop. generalize (for_range a b s).
  intros l. revert st. induction l as [|i l IH]; intros st Hst;
    [assumption | simpl; apply IH, Hbody; assumption].
Qed.

Lemma min_max_body_terrain (x y : Z) (g : globals) :
  terrain (min_max_body x y g) = terrain g.
Proof.
  unfold min_max_body.
  destruct (Qltb (terrain g x y) (min_height g)); simpl;
    match goal with |- context [if ?c then _ else _] => destruct c end;
    reflexivity.
Qed.

Lemma calculate_min_max_height_terrain (n : Z) (g : globals) :
  terrain (calculate_min_max_height n g) = terrain g.
Proof.
  unfold calculate_min_max_height.
  apply (for_loop_invariant (fun g' => terrain g' = terrain g));
    [|reflexivity].
  intros x g1 Hg1.
  apply (for_loop_invariant (fun g' => terrain g' = terrain g));
    [|assumption].
  intros y g2 Hg2. rewrite min_max_body_terrain. assumption.
Qed.

Lemma generate_terrain_pow2 (k : nat) (RAND_MAX : Z) (rand : nat -> Z)
    (decay : Q) (g : globals) :
  generate_terrain (2 ^ Z.of_nat k + 1) RAND_MAX rand decay g
  = Some (snd (run_passes (2 ^ Z.of_nat k + 1) RAND_MAX rand decay k
                          (2 ^ Z.of_nat k) INITIAL_HEIGHT
                          (set_max (set_min g 0%Q) 0%Q))).
Proof.
  unfold generate_terrain.
  replace (2 ^ Z.of_nat k + 1 - 1) with (2 ^ Z.of_nat k) by lia.
  rewrite generate_loop_pow2, passes_within_fuel. reflexivity.
Qed.

(** C2.  On a grid of side [N = 2 ^ k + 1], after the corner reset and the
    generation pass, and after the whole regeneration, each of the four
    corner cells holds exactly 0; in every pass of the loop (lengths
    [2 ^ (j + 1)] for [j < k]) no square-step write and no diamond-step
    write targets a corner. *)
Theorem corners_zero_after_regeneration (k j : nat) (RAND_MAX : Z)
    (rand : nat -> Z) (decay : Q) (g : globals) (a b : Z) :
  let n := 2 ^ Z.of_nat k + 1 in
  corner n a b -> (j < k)%nat ->
  (exists g1 g2,
     generate_terrain n RAND_MAX rand decay (reset_canvas_corners n g)
     = Some g1 /\
     regenerate n RAND_MAX rand decay g = Some g2 /\
     terrain g1 a b = 0%Q /\ terrain g2 a b = 0%Q) /\
  let length := 2 ^ Z.of_nat (S j) in
  let half := Z.quot length 2 in
  (forall c, In c (square_cells n length) ->
             square_target half c <> (a, b)) /\
  (forall c, In c (diamond_cells n length half) -> c <> (a, b)).
Proof.
  intros n Hc Hjk.
  pose proof (pow2_pos k) as Hk.
  assert (Hn : n - 1 = 2 ^ Z.of_nat k * 1) by (unfold n; lia).
  split.
  - exists (snd (run_passes n RAND_MAX rand decay k (2 ^ Z.of_nat k)
                            INITIAL_HEIGHT
                            (set_max (set_min (reset_canvas_corners n g) 0%Q)
                                     0%Q))).
    eexists.
    assert (Hgen := generate_terrain_pow2 k RAND_MAX rand decay
                      (reset_canvas_corners n g)).
    fold n in Hgen.
    assert (Hz : terrain
                   (snd (run_passes n RAND_MAX rand decay k (2 ^ Z.of_nat k)
                           INITIAL_HEIGHT
                           (set_max (set_min (reset_canvas_corners n g) 0%Q)
                                    0%Q))) a b = 0%Q).
    { rewrite (run_passes_frame n RAND_MAX rand decay k 1 _ _ a b Hn).
      - simpl. apply reset_canvas_corners_zero. assumption.
      - apply (corner_coarse n _ 1); [assumption | lia | assumption]. }
    split; [exact Hgen|]. split; [|split].
    + unfold regenerate. rewrite Hgen. reflexivity.
    + exact Hz.
    + rewrite calculate_min_max_height_terrain. exact Hz.
  - intros length half.
    assert (Hs : pass_shape n length (2 ^ Z.of_nat j)
                            (2 ^ Z.of_nat (k - S j))).
    { pose proof (pow2_pos j). split; [lia|]. split.
      - unfold length. rewrite Nat2Z.inj_succ, Z.pow_succ_r by lia.
        reflexivity.
      - unfold n, length. rewrite <- Z.pow_add_r by lia.
        replace (Z.of_nat (S j) + Z.of_nat (k - S j)) with (Z.of_nat k)
          by lia. lia. }
    assert (Hh : half = 2 ^ Z.of_nat j) by (apply pow2_quot).
    assert (Hco : coarse_cell n length a b).
    { destruct Hs as (_ & _ & Hm).
      apply (corner_coarse n length _ a b Hm); [lia | assumption]. }
    rewrite Hh. split.
    + intros c Hin Heq.
      apply (square_target_not_coarse n _ _ _ c a b Hs Hin Hco).
      rewrite Heq. reflexivity.
    + intros c Hin Heq.
      apply (diamond_cells_In n _ _ _ c Hs) in Hin.
      apply (diamond_not_even n _ _ _ c a b Hs Hin (or_introl Hco)).
      rewrite Heq. reflexivity.
Qed.

Lemma corners_zero_after_regeneration_witness :
  corner 5 0 4 /\ (1 < 2)%nat /\
  exists g2,
    regenerate 5 32767 sample_rand sample_decay initial_globals = Some g2 /\
    terrain g2 0 4 = 0%Q.
Proof.
  assert (Hc : corner 5 0 4) by (split; [left | right]; reflexivity).
  assert (Hj : (1 < 2)%nat) by lia.
  split; [exact Hc|]. split; [exact Hj|].
  destruct (corners_zero_after_regeneration 2 1 32767 sample_rand
              sample_decay initial_globals 0 4 Hc Hj)
    as ((g1 & g2 & _ & Hreg & _ & Hz) & _).
  exists g2. split; [exact Hreg | exact Hz].
Defined.

(** ** Elevation statistics *)

Definition scan_cells (cells : list (Z * Z)) (g : globals) : globals :=
  fold_left (fun g c => min_max_body (fst c) (snd c) g) cells g.

Lemma min_max_body_spec (x y : Z) (g : globals) :
  let g' := min_max_body x y g in
  (min_height g' <= min_height g)%Q /\ (max_height g <= max_height g')%Q /\
  (min_height g' <= terrain g x y <= max_height g')%Q.
Proof.
  unfold min_max_body.
  destruct (Qltb (terrain g x y) (min_height g)) eqn:E1;
    [apply Qltb_lt in E1 | apply Qltb_ge in E1];
    cbn [terrain set_min max_height].
  - destruct (Qltb (max_height g) (terrain g x y)) eqn:E2;
      [apply Qltb_lt in E2 | apply Qltb_ge in E2]; simpl; lra.
  - destruct (Qltb (max_height g) (terrain g x y)) eqn:E2;
      [apply Qltb_lt in E2 | apply Qltb_ge in E2]; simpl; lra.
Qed.

Lemma scan_cells_spec (cells : list (Z * Z)) (g : globals) :
  let g' := scan_cells cells g in
  terrain g' = terrain g /\
  (min_height g' <= min_height g)%Q /\ (max_height g <= max_height g')%Q /\
  forall c, In c cells ->
    (min_height g' <= terrain g (fst c) (snd c) <= max_height g')%Q.
Proof.
  revert g. induction cells as [|c cells IH]; intros g.
  - simpl. split; [reflexivity|]. split; [lra|]. split; [lra|].
    intros c [].
  - cbn [scan_cells fold_left].
    destruct (IH (min_max_body (fst c) (snd c) g)) as (Ht & Hmin & Hmax & Hc).
    fold (scan_cells cells (min_max_body (fst c) (snd c) g)).
    destruct (min_max_body_spec (fst c) (snd c) g) as (Bmin & Bmax & Bc).
    rewrite min_max_body_terrain in Ht, Hc.
    split; [exact Ht|]. split; [lra|]. split; [lra|].
    intros c' [<- | Hin]; [lra | apply Hc; assumption].
Qed.

Lemma calculate_min_max_height_cells (n : Z) (g : globals) :
  calculate_min_max_height n g
  = scan_cells (flat_map (fun x => map (pair x) (for_range 0 n 1))
                         (for_range 0 n 1))
               (set_max (set_min g (terrain g 0 0)) (terrain g 0 0)).
Proof.
  unfold calculate_min_max_height, for_loop, scan_cells.
  apply (nested_fold (fun x y g => min_max_body x y g)
                     (fun _ => for_range 0 n 1)).
Qed.

Lemma calculate_min_max_height_spec (n : Z) (g : globals) (x y : Z) :
  0 <= x < n -> 0 <= y < n ->
  let g' := calculate_min_max_height n g in
  (min_height g' <= terrain g' x y <= max_height g')%Q.
Proof.
  intros Hx Hy g'. unfold g'.
  rewrite calculate_min_max_height_terrain.
  rewrite calculate_min_max_height_cells.
  destruct (scan_cells_spec
              (flat_map (fun x => map (pair x) (for_range 0 n 1))
                        (for_range 0 n 1))
              (set_max (set_min g (terrain g 0 0)) (terrain g 0 0)))
    as (_ & _ & _ & Hc).
  apply (Hc (x, y)). apply in_flat_map. exists x. split.
  - apply for_range_In; [lia|]. exists x. lia.
  - apply in_map. apply for_range_In; [lia|]. exists y. lia.
Qed.

(** C10.  On a grid of side [N = 2 ^ k + 1], after a regeneration (corner
    reset, generation, recomputation of the statistics) every cell of the
    grid lies between [min_height] and [max_height], and so does 0, the
    value of the corner cells. *)
Theorem statistics_bracket_terrain (k : nat) (RAND_MAX : Z)
    (rand : nat -> Z) (decay : Q) (g : globals) (x y : Z) :
  let n := 2 ^ Z.of_nat k + 1 in
  0 <= x < n -> 0 <= y < n ->
  exists g',
    regenerate n RAND_MAX rand decay g = Some g' /\
    (min_height g' <= terrain g' x y <= max_height g')%Q /\
    terrain g' 0 0 = 0%Q /\
    (min_height g' <= 0 <= max_height g')%Q.
Proof.
  intros n Hx Hy.
  pose proof (pow2_pos k) as Hk.
  assert (Hgen := generate_terrain_pow2 k RAND_MAX rand decay
                    (reset_canvas_corners n g)).
  fold n in Hgen. unfold regenerate. rewrite Hgen. cbn [option_map].
  eexists. split; [reflexivity|].
  split; [apply calculate_min_max_height_spec; assumption|].
  assert (Hz : terrain
                 (calculate_min_max_height n
                    (snd (run_passes n RAND_MAX rand decay k (2 ^ Z.of_nat k)
                            INITIAL_HEIGHT
                            (set_max (set_min (reset_canvas_corners n g) 0%Q)
                                     0%Q)))) 0 0 = 0%Q).
  { rewrite calculate_min_max_height_terrain.
    assert (Hn : n - 1 = 2 ^ Z.of_nat k * 1) by (unfold n; lia).
    assert (Hc : corner n 0 0) by (split; left; reflexivity).
    rewrite (run_passes_frame n RAND_MAX rand decay k 1 _ _ 0 0 Hn).
    - simpl. apply reset_canvas_corners_zero. assumption.
    - apply (corner_coarse n _ 1); [assumption | lia | assumption]. }
  split; [exact Hz|].
  pose proof (calculate_min_max_height_spec n
                (snd (run_passes n RAND_MAX rand decay k (2 ^ Z.of_nat k)
                        INITIAL_HEIGHT
                        (set_max (set_min (reset_canvas_corners n g) 0%Q)
                                 0%Q))) 0 0) as H0.
  cbv zeta in H0. rewrite Hz in H0. apply H0; unfold n; lia.
Qed.

Lemma statistics_bracket_terrain_witness :
  0 <= 1 < 5 /\ 0 <= 3 < 5 /\
  exists g',
    regenerate 5 32767 sample_rand sample_decay initial_globals = Some g' /\
    (min_height g' <= terrain g' 1 3 <= max_height g')%Q /\
    (min_height g' <= 0 <= max_height g')%Q.
Proof.
  assert (Hx : 0 <= 1 < 5) by lia.
  assert (Hy : 0 <= 3 < 5) by lia.
  split; [exact Hx|]. split; [exact Hy|].
  destruct (statistics_bracket_terrain 2 32767 sample_rand sample_decay
              initial_globals 1 3 Hx Hy) as (g' & Hreg & Hb & _ & H0).
  exists g'. split; [exact Hreg|]. split; [exact Hb | exact H0].
Defined.

(** ** The bound on generated elevations *)

(** The sum of [decay ^ i] over the passes [i = 0 .. k - 1]: with [decay]
    standing for [2 ^ (- roughness)] this is the sum of
    [2 ^ (- roughness * i)]. *)
Definition power_sum (decay : Q) (k : nat) : Q :=
  fold_right (fun i s => decay ^ Z.of_nat i + s)%Q 0%Q (seq 0 k).

Lemma power_sum_from (decay : Q) (a k : nat) :
  (fold_right (fun i s => decay ^ Z.of_nat i + s) 0 (seq a k)
   == decay ^ Z.of_nat a * geometric_sum decay k)%Q.
Proof.
  revert a. induction k as [|k IH]; intros a.
  - simpl. ring.
  - cbn [seq fold_right geometric_sum]. rewrite IH.
    rewrite Nat2Z.inj_succ. unfold Z.succ.
    rewrite Qpower_plus' by lia. simpl (decay ^ 1)%Q. ring.
Qed.

Lemma power_sum_geometric (decay : Q) (k : nat) :
  (power_sum decay k == geometric_sum decay k)%Q.
Proof.
  unfold power_sum. rewrite power_sum_from. simpl. ring.
Qed.

Lemma reset_bounded (n length : Z) (g : globals) :
  n - 1 = length -> 0 < length ->
  bounded_on (coarse_cell n length) 0
             (terrain (set_max (set_min (reset_canvas_corners n g) 0%Q) 0%Q)).
Proof.
  intros Hn Hpos a b ((Ha & Hb) & i & j & Hi & Hj).
  cbn [terrain set_max set_min].
  rewrite reset_canvas_corners_zero; [lra|].
  assert (Hi' : i = 0 \/ i = 1) by nia.
  assert (Hj' : j = 0 \/ j = 1) by nia.
  split; [destruct Hi' as [-> | ->] | destruct Hj' as [-> | ->]]; lia.
Qed.

(** C7.  With [rand()] in [0, RAND_MAX] and a decay factor
    [decay = 2 ^ (- roughness) >= 0]: a noise sample lies within the
    amplitude passed to [calculate_noise], and on a grid of side
    [N = 2 ^ k + 1], after the corner reset and a full generation pass,
    every cell of the grid lies within plus or minus
    [2 * INITIAL_HEIGHT * (decay ^ 0 + ... + decay ^ (k - 1))]. *)
Theorem generated_heights_bounded (k : nat) (RAND_MAX : Z)
    (rand : nat -> Z) (decay : Q) (g g0 : globals) (amplitude : Q)
    (x y : Z) :
  0 < RAND_MAX -> (forall i, 0 <= rand i <= RAND_MAX) ->
  (0 <= decay)%Q -> (0 <= amplitude)%Q ->
  let n := 2 ^ Z.of_nat k + 1 in
  0 <= x < n -> 0 <= y < n ->
  (- amplitude <= fst (calculate_noise RAND_MAX rand amplitude g0)
   <= amplitude)%Q /\
  exists g',
    generate_terrain n RAND_MAX rand decay (reset_canvas_corners n g)
    = Some g' /\
    let B := (2 * INITIAL_HEIGHT * power_sum decay k)%Q in
    (- B <= terrain g' x y <= B)%Q.
Proof.
  intros HM Hrand Hd Ha n Hx Hy.
  split; [apply noise_bound; auto|].
  pose proof (pow2_pos k) as Hk.
  assert (Hgen := generate_terrain_pow2 k RAND_MAX rand decay
                    (reset_canvas_corners n g)).
  fold n in Hgen. rewrite Hgen. eexists. split; [reflexivity|].
  assert (Hn : n - 1 = 2 ^ Z.of_nat k * 1) by (unfold n; lia).
  assert (HA : (0 <= INITIAL_HEIGHT)%Q) by (unfold INITIAL_HEIGHT; lra).
  destruct (run_passes_spec n RAND_MAX rand decay k 1 INITIAL_HEIGHT 0
              (set_max (set_min (reset_canvas_corners n g) 0%Q) 0%Q)
              Hn HM Hrand HA Hd) as (_ & _ & Hb).
  - apply reset_bounded; [unfold n; lia | assumption].
  - cbv zeta. rewrite power_sum_geometric.
    assert (Hxy : coarse_cell n 1 x y).
    { split; [unfold inside; lia|]. exists x, y. lia. }
    apply Hb in Hxy. lra.
Qed.

Lemma generated_heights_bounded_witness :
  0 <= 2 < 5 /\ 0 <= 3 < 5 /\
  exists g',
    generate_terrain 5 32767 sample_rand sample_decay
                     (reset_canvas_corners 5 initial_globals) = Some g' /\
    (- (2 * INITIAL_HEIGHT * power_sum sample_decay 2) <= terrain g' 2 3
     <= 2 * INITIAL_HEIGHT * power_sum sample_decay 2)%Q.
Proof.
  assert (HM : 0 < 32767) by lia.
  assert (Hd : (0 <= sample_decay)%Q) by (unfold sample_decay; lra).
  assert (Ha : (0 <= 1)%Q) by lra.
  assert (Hx : 0 <= 2 < 5) by lia.
  assert (Hy : 0 <= 3 < 5) by lia.
  split; [exact Hx|]. split; [exact Hy|].
  destruct (generated_heights_bounded 2 32767 sample_rand sample_decay
              initial_globals initial_globals 1 2 3 HM sample_rand_range
              Hd Ha Hx Hy) as (_ & g' & Hgen & Hb).
  exists g'. split; [exact Hgen | exact Hb].
Defined.

(** ** The value written by the diamond step *)

Definition on_boundary (n x y : Z) : bool :=
  (x =? 0) || (x =? n - 1) || (y =? 0) || (y =? n - 1).

Lemma neighbor_average_ext (n : Z) (t1 t2 : Z -> Z -> Q) (half x y : Z) :
  (forall c, In c (neighbors_in_grid n half x y) ->
             t1 (fst c) (snd c) = t2 (fst c) (snd c)) ->
  neighbor_average n t1 half x y = neighbor_average n t2 half x y.
Proof.
  intros Hext. unfold neighbor_average. cbv zeta. f_equal.
  revert Hext. generalize (neighbors_in_grid n half x y) 0%Q.
  intros l. induction l as [|c l IH]; intros acc Hext; [reflexivity|].
  cbn [fold_left]. rewrite (Hext c (or_introl eq_refl)).
  apply IH. intros c' Hc'. apply Hext. right. assumption.
Qed.

(** Replace every integer test of the goal that [lia] decides by its
    value. *)
Ltac settle_test b :=
  first [ replace b with true by lia | replace b with false by lia ].

Ltac settle_tests :=
  repeat match goal with
         | |- context [Z.geb ?u ?v] => settle_test (Z.geb u v)
         | |- context [Z.ltb ?u ?v] => settle_test (Z.ltb u v)
         | |- context [Z.eqb ?u ?v] => settle_test (Z.eqb u v)
         end.

Lemma diamond_count_boundary (n length half m x y : Z) (t : Z -> Z -> Q) :
  pass_shape n length half m -> diamond_cell n length half (x, y) ->
  snd (diamond_sum_count n t half x y)
  = if on_boundary n x y then 3 else 4.
Proof.
  intros (Hh & HL & Hn) (Hx & Hy & i & j & Hxy). cbn [fst snd] in Hx, Hy.
  unfold diamond_sum_count, on_boundary.
  destruct Hxy as [E | E]; injection E as Ex Ey.
  - (* x on a line of the coarse grid, y half way between two lines *)
    assert (Hj : 0 <= j < m) by nia.
    assert (Hy1 : half <= y /\ y + half <= n - 1) by nia.
    assert (Hi : 0 <= i <= m) by nia.
    destruct (Z.eq_dec i 0) as [-> | Hi0];
      [|destruct (Z.eq_dec i m) as [-> | Him]].
    + settle_tests. reflexivity.
    + settle_tests. reflexivity.
    + assert (Hx1 : half <= x /\ x + half <= n - 1) by nia.
      settle_tests. reflexivity.
  - (* y on a line of the coarse grid, x half way between two lines *)
    assert (Hi : 0 <= i < m) by nia.
    assert (Hx1 : half <= x /\ x + half <= n - 1) by nia.
    assert (Hj : 0 <= j <= m) by nia.
    destruct (Z.eq_dec j 0) as [-> | Hj0];
      [|destruct (Z.eq_dec j m) as [-> | Hjm]].
    + settle_tests. reflexivity.
    + settle_tests. reflexivity.
    + assert (Hy1 : half <= y /\ y + half <= n - 1) by nia.
      settle_tests. reflexivity.
Qed.

Lemma pass_shape_pow2 (k j : nat) :
  (j < k)%nat ->
  pass_shape (2 ^ Z.of_nat k + 1) (2 ^ Z.of_nat (S j)) (2 ^ Z.of_nat j)
             (2 ^ Z.of_nat (k - S j)).
Proof.
  intros Hjk. pose proof (pow2_pos j). split; [lia|]. split.
  - rewrite Nat2Z.inj_succ, Z.pow_succ_r by lia. reflexivity.
  - rewrite <- Z.pow_add_r by lia.
    replace (Z.of_nat (S j) + Z.of_nat (k - S j)) with (Z.of_nat k) by lia.
    lia.
Qed.

Lemma diamond_step_value (n RAND_MAX : Z) (rand : nat -> Z)
    (length half m : Z) (amplitude : Q) (g : globals) (c : Z * Z) :
  pass_shape n length half m -> diamond_cell n length half c ->
  exists i : nat,
    terrain (diamond_step n RAND_MAX rand length half amplitude g)
            (fst c) (snd c)
    = (neighbor_average n (terrain g) half (fst c) (snd c)
       + noise_of RAND_MAX (rand i) amplitude)%Q.
Proof.
  intros Hs Hc.
  destruct (diamond_step_post n RAND_MAX rand length half m amplitude
              (fun t => forall a b, even_cell n length half a b ->
                                    t a b = terrain g a b)
              (fun c v => exists i : nat,
                 v = (neighbor_average n (terrain g) half (fst c) (snd c)
                      + noise_of RAND_MAX (rand i) amplitude)%Q)
              g Hs) as [_ Hpost].
  - intros c' t v Hc' Hinv a b Hab.
    rewrite store_other; [apply Hinv; assumption|].
    apply (diamond_not_even n length half m); assumption.
  - intros c' g0 Hc' Hinv. exists (rand_calls g0).
    rewrite (diamond_value_average n RAND_MAX rand length half m amplitude
               c' g0 Hs Hc').
    f_equal. apply neighbor_average_ext. intros c0 Hc0. apply Hinv.
    apply (diamond_neighbors_even n length half m (fst c') (snd c'));
      [assumption | rewrite <- surjective_pairing; assumption | assumption].
  - reflexivity.
  - apply Hpost. assumption.
Qed.

(** C1.  On a grid of side [N = 2 ^ k + 1], in the diamond step of every
    pass ([length = 2 ^ (j + 1)] with [j < k], [half = length / 2]) and at
    every cell [(x, y)] the diamond loops visit: the loop body writes at
    [(x, y)] the sum of the cells at distance [half] in the four cardinal
    directions that lie inside the grid, divided by [count], plus one noise
    sample; [count] is the number of those cells, 4 away from the border
    and 3 on it; and after the whole step the cell holds that average,
    taken on the grid as the step found it, plus one noise sample. *)
Theorem diamond_write_is_neighbor_average (k j : nat) (RAND_MAX : Z)
    (rand : nat -> Z) (amplitude : Q) (g : globals) (x y : Z) :
  let n := 2 ^ Z.of_nat k + 1 in
  let length := 2 ^ Z.of_nat (S j) in
  let half := Z.quot length 2 in
  (j < k)%nat ->
  In (x, y) (diamond_cells n length half) ->
  let cells := neighbors_in_grid n half x y in
  let count := snd (diamond_sum_count n (terrain g) half x y) in
  terrain (diamond_body n RAND_MAX rand half amplitude x y g) x y
  = (fold_left (fun s c => s + terrain g (fst c) (snd c)) cells 0
     / inject_Z count
     + fst (calculate_noise RAND_MAX rand amplitude g))%Q /\
  count = Z.of_nat (List.length cells) /\
  count = (if on_boundary n x y then 3 else 4) /\
  exists i : nat,
    terrain (diamond_step n RAND_MAX rand length half amplitude g) x y
    = (neighbor_average n (terrain g) half x y
       + noise_of RAND_MAX (rand i) amplitude)%Q.
Proof.
  intros n length half Hjk Hin cells count.
  assert (Hh : half = 2 ^ Z.of_nat j) by apply pow2_quot.
  pose proof (pass_shape_pow2 k j Hjk) as Hs.
  fold n length in Hs. rewrite <- Hh in Hs.
  apply (diamond_cells_In n length half _ (x, y) Hs) in Hin.
  destruct (diamond_cell_in_grid n length half _ x y Hs Hin) as (Hx & Hy & _).
  assert (Hh1 : 0 <= half) by (destruct Hs; lia).
  pose proof (diamond_sum_count_neighbors n (terrain g) half x y Hh1 Hx Hy)
    as Hsc.
  split; [|split; [|split]].
  - pose proof (diamond_body_terrain n RAND_MAX rand half amplitude (x, y) g)
      as Hb.
    cbn [fst snd] in Hb. rewrite Hb, store_same. unfold diamond_value, count.
    cbn [fst snd]. rewrite Hsc. reflexivity.
  - unfold count. rewrite Hsc. reflexivity.
  - apply (diamond_count_boundary n length half _ x y (terrain g) Hs Hin).
  - apply (diamond_step_value n RAND_MAX rand length half _ amplitude g
             (x, y) Hs Hin).
Qed.

Lemma diamond_write_is_neighbor_average_witness :
  (0 < 2)%nat /\ In (0, 1) (diamond_cells 5 2 1) /\
  snd (diamond_sum_count 5 (terrain initial_globals) 1 0 1) = 3 /\
  terrain (diamond_body 5 32767 sample_rand 1 INITIAL_HEIGHT 0 1
                        initial_globals) 0 1
  = (fold_left (fun s c => s + terrain initial_globals (fst c) (snd c))
               (neighbors_in_grid 5 1 0 1) 0
     / inject_Z 3
     + fst (calculate_noise 32767 sample_rand INITIAL_HEIGHT
                            initial_globals))%Q.
Proof.
  assert (Hj : (0 < 2)%nat) by lia.
  assert (Hin : In (0, 1) (diamond_cells 5 2 1))
    by (vm_compute; left; reflexivity).
  split; [exact Hj|]. split; [exact Hin|].
  destruct (diamond_write_is_neighbor_average 2 0 32767 sample_rand
              INITIAL_HEIGHT initial_globals 0 1 Hj Hin)
    as (Hw & _ & Hc & _).
  split; [exact Hc | exact Hw].
Defined.

(** ** View fitting *)

(** The vertices in the order of the fitter's scan, as (y, x). *)
Definition grid_cells (n : Z) : list (Z * Z) :=
  flat_map (fun y => map (pair y) (for_range 0 n 1)) (for_range 0 n 1).

Lemma grid_cells_In (n : Z) (c : Z * Z) :
  In c (grid_cells n) <-> 0 <= snd c < n /\ 0 <= fst c < n.
Proof.
  unfold grid_cells. rewrite in_flat_map. split.
  - intros (y & Hy & Hc). apply in_map_iff in Hc.
    destruct Hc as (x & <- & Hx).
    apply for_range_In in Hx; [|lia]. apply for_range_In in Hy; [|lia].
    simpl. destruct Hx as (i & ? & ? & ?). destruct Hy as (j & ? & ? & ?).
    lia.
  - intros [Hx Hy]. exists (fst c). split.
    + apply for_range_In; [lia|]. exists (fst c). lia.
    + rewrite (surjective_pairing c) at 1. apply in_map.
      apply for_range_In; [lia|]. exists (snd c). lia.
Qed.

Section ViewFit.

Variable n : Z.
Variable cos_rot sin_rot sin_iso : Q.
Variable t : Z -> Z -> Q.

Lemma bounds_body_spec (x y : Z) (b : bounds) :
  let b' := bounds_body cos_rot sin_rot sin_iso t x y b in
  (min_x b' <= min_x b /\ max_x b <= max_x b' /\
   min_y b' <= min_y b /\ max_y b <= max_y b' /\
   min_x b' <= vx (project_vertex cos_rot sin_rot sin_iso t x y) <= max_x b' /\
   min_y b' <= vy (project_vertex cos_rot sin_rot sin_iso t x y) <= max_y b')%Q.
Proof.
  unfold bounds_body.
  set (p := project_vertex cos_rot sin_rot sin_iso t x y).
  destruct (Qltb (vx p) (min_x b)) eqn:E1;
    [apply Qltb_lt in E1 | apply Qltb_ge in E1];
    cbn [min_x max_x min_y max_y];
    (destruct (Qltb (max_x b) (vx p)) eqn:E2;
     [apply Qltb_lt in E2 | apply Qltb_ge in E2]);
    cbn [min_x max_x min_y max_y];
    (destruct (Qltb (vy p) (min_y b)) eqn:E3;
     [apply Qltb_lt in E3 | apply Qltb_ge in E3]);
    cbn [min_x max_x min_y max_y];
    (destruct (Qltb (max_y b) (vy p)) eqn:E4;
     [apply Qltb_lt in E4 | apply Qltb_ge in E4]);
    cbn [min_x max_x min_y max_y]; repeat split; lra.
Qed.

Definition scan_bounds (cells : list (Z * Z)) (b : bounds) : bounds :=
  fold_left (fun b c => bounds_body cos_rot sin_rot sin_iso t (snd c) (fst c) b)
            cells b.

Lemma scan_bounds_spec (cells : list (Z * Z)) (b : bounds) :
  let b' := scan_bounds cells b in
  (min_x b' <= min_x b /\ max_x b <= max_x b' /\
   min_y b' <= min_y b /\ max_y b <= max_y b')%Q /\
  forall c, In c cells ->
    let p := project_vertex cos_rot sin_rot sin_iso t (snd c) (fst c) in
    (min_x b' <= vx p <= max_x b' /\ min_y b' <= vy p <= max_y b')%Q.
Proof.
  revert b. induction cells as [|c cells IH]; intros b.
  - simpl. split; [repeat split; lra | intros c []].
  - cbn [scan_bounds fold_left].
    fold (scan_bounds cells
            (bounds_body cos_rot sin_rot sin_iso t (snd c) (fst c) b)).
    destruct (IH (bounds_body cos_rot sin_rot sin_iso t (snd c) (fst c) b))
      as ((I1 & I2 & I3 & I4) & Hc).
    destruct (bounds_body_spec (snd c) (fst c) b)
      as (B1 & B2 & B3 & B4 & B5 & B6).
    split; [repeat split; lra|].
    intros c' [<- | Hin]; [repeat split; lra | apply Hc; assumption].
Qed.

Lemma projected_bounds_cells :
  projected_bounds n cos_rot sin_rot sin_iso t
  = scan_bounds (flat_map (fun y => map (pair y) (for_range 0 n 1))
                          (for_range 0 n 1))
                (mkBounds 1000000000 (-1000000000) 1000000000 (-1000000000)).
Proof.
  unfold projected_bounds, for_loop, scan_bounds.
  apply (nested_fold
           (fun y x b => bounds_body cos_rot sin_rot sin_iso t x y b)
           (fun _ => for_range 0 n 1)).
Qed.

Lemma projected_bounds_spec (x y : Z) :
  0 <= x < n -> 0 <= y < n ->
  let b := projected_bounds n cos_rot sin_rot sin_iso t in
  (min_x b <= vx (project_vertex cos_rot sin_rot sin_iso t x y) <= max_x b /\
   min_y b <= vy (project_vertex cos_rot sin_rot sin_iso t x y) <= max_y b)%Q.
Proof.
  intros Hx Hy b. unfold b. rewrite projected_bounds_cells.
  destruct (scan_bounds_spec
              (flat_map (fun y => map (pair y) (for_range 0 n 1))
                        (for_range 0 n 1))
              (mkBounds 1000000000 (-1000000000) 1000000000 (-1000000000)))
    as [_ Hc].
  apply (Hc (y, x)). apply in_flat_map. exists y. split.
  - apply for_range_In; [lia|]. exists y. lia.
  - apply in_map. apply for_range_In; [lia|]. exists x. lia.
Qed.

(** Each tracked bound is either the value it started with or the
    coordinate of a scanned vertex. *)
Definition attained (start bound : Q) (coord : Vector2 -> Q)
    (cells : list (Z * Z)) : Prop :=
  bound = start \/
  exists c, In c cells /\
            bound = coord (project_vertex cos_rot sin_rot sin_iso t
                                          (snd c) (fst c)).

Lemma bounds_body_attained (x y : Z) (b : bounds) :
  let b' := bounds_body cos_rot sin_rot sin_iso t x y b in
  let p := project_vertex cos_rot sin_rot sin_iso t x y in
  (min_x b' = min_x b \/ min_x b' = vx p) /\
  (max_x b' = max_x b \/ max_x b' = vx p) /\
  (min_y b' = min_y b \/ min_y b' = vy p) /\
  (max_y b' = max_y b \/ max_y b' = vy p).
Proof.
  unfold bounds_body.
  set (p := project_vertex cos_rot sin_rot sin_iso t x y).
  destruct (Qltb (vx p) (min_x b)); cbn [min_x max_x min_y max_y];
    (destruct (Qltb (max_x b) (vx p)); cbn [min_x max_x min_y max_y]);
    (destruct (Qltb (vy p) (min_y b)); cbn [min_x max_x min_y max_y]);
    (destruct (Qltb (max_y b) (vy p)); cbn [min_x max_x min_y max_y]);
    repeat split; auto.
Qed.

Lemma attained_step (start old new : Q) (coord : Vector2 -> Q)
    (c : Z * Z) (cells : list (Z * Z)) :
  old = start \/
  old = coord (project_vertex cos_rot sin_rot sin_iso t (snd c) (fst c)) ->
  attained old new coord cells ->
  attained start new coord (c :: cells).
Proof.
  intros Hold [-> | (c' & Hin & ->)].
  - destruct Hold as [-> | ->]; [left; reflexivity|].
    right. exists c. split; [left; reflexivity | reflexivity].
  - right. exists c'. split; [right; assumption | reflexivity].
Qed.

Lemma scan_bounds_attained (cells : list (Z * Z)) (b : bounds) :
  let b' := scan_bounds cells b in
  attained (min_x b) (min_x b') vx cells /\
  attained (max_x b) (max_x b') vx cells /\
  attained (min_y b) (min_y b') vy cells /\
  attained (max_y b) (max_y b') vy cells.
Proof.
  revert b. induction cells as [|c cells IH]; intros b.
  - simpl. repeat split; left; reflexivity.
  - cbn [scan_bounds fold_left].
    fold (scan_bounds cells
            (bounds_body cos_rot sin_rot sin_iso t (snd c) (fst c) b)).
    destruct (IH (bounds_body cos_rot sin_rot sin_iso t (snd c) (fst c) b))
      as (I1 & I2 & I3 & I4).
    destruct (bounds_body_attained (snd c) (fst c) b) as (B1 & B2 & B3 & B4).
    repeat split; eapply attained_step; eauto.
Qed.

Lemma projected_bounds_attained :
  let b := projected_bounds n cos_rot sin_rot sin_iso t in
  attained 1000000000 (min_x b) vx (grid_cells n) /\
  attained (-1000000000) (max_x b) vx (grid_cells n) /\
  attained 1000000000 (min_y b) vy (grid_cells n) /\
  attained (-1000000000) (max_y b) vy (grid_cells n).
Proof.
  cbv zeta. rewrite projected_bounds_cells.
  apply (scan_bounds_attained _
           (mkBounds 1000000000 (-1000000000) 1000000000 (-1000000000))).
Qed.

End ViewFit.








(** Sample inputs for the concrete runs of the fitter: rational stand-ins
    for the sines and cosines, a 3 x 3 heightfield, and a 3 x 3 heightfield
    whose projection is flat. *)
Definition sample_cos : Q := 7 # 10.
Definition sample_sin_iso : Q := 1 # 2.
Definition sample_heights (x y : Z) : Q := inject_Z (x * y).


(** ** A projected extent of zero *)





Lemma diamond_count_pos_witness :
  1 < 4 <= 5 - 1 /\
  In 0 (for_range 0 5 2) /\
  In 2 (for_range (Z.rem (0 + 2) 4) 5 4) /\
  1 <= snd (diamond_sum_count 5 (terrain initial_globals) 2 0 2).
Proof.
  assert (Hl : 1 < 4 <= 5 - 1) by lia.
  assert (Hx : In 0 (for_range 0 5 (Z.quot 4 2)))
    by (vm_compute; left; reflexivity).
  assert (Hy : In 2 (for_range (Z.rem (0 + Z.quot 4 2) 4) 5 4))
    by (vm_compute; left; reflexivity).
  split; [exact Hl|]. split; [exact Hx|]. split; [exact Hy|].
  destruct (diamond_count_pos 5 4 0 2 (terrain initial_globals) Hl Hx Hy)
    as (_ & _ & Hc).
  exact Hc.
Defined.

(** ** Concrete runs *)

Example for_range_0_5_2 : for_range 0 5 2 = [0; 2; 4].
Proof. reflexivity. Qed.

Example square_cells_5_4 : square_cells 5 4 = [(0, 0)].
Proof. reflexivity. Qed.

Example diamond_cells_5_4 :
  diamond_cells 5 4 2 = [(0, 2); (2, 0); (2, 4); (4, 2)].
Proof. reflexivity. Qed.

(** A regeneration of the 5 x 5 grid draws one sample per cell that is not
    a corner. *)
Example regenerate_5_draws :
  option_map rand_calls
             (regenerate 5 32767 sample_rand sample_decay initial_globals)
  = Some 21%nat.
Proof. vm_compute. reflexivity. Qed.

Example flat_terrain_color : calculate_height_color 0 0 0 = COLOR_WATER.
Proof. reflexivity. Qed.

(** Outside the grids the program is built for: a single vertex has both
    extents zero, and only then is the scale itself infinite. *)
Example single_vertex_view :
  calculate_view_parameters 1 sample_cos sample_cos sample_sin_iso
                            sample_heights
  = mkView (FInf false) FNaN FNaN.
Proof. reflexivity. Qed.


(** * Further properties of the program *)

(** ** The projection *)




(** ** The noise source *)

(** X3.  With [RAND_MAX > 0] and a non-negative amplitude the sample grows
    with the value [rand()] returned, from exactly [- amplitude] at 0 to
    exactly [+ amplitude] at [RAND_MAX]; a call moves the stream by one
    draw and leaves the grid and the statistics alone. *)
Theorem calculate_noise_monotone (RAND_MAX : Z) (rand : nat -> Z)
    (amplitude : Q) (r1 r2 : Z) (g : globals) :
  0 < RAND_MAX -> (0 <= amplitude)%Q -> r1 <= r2 ->
  (noise_of RAND_MAX r1 amplitude <= noise_of RAND_MAX r2 amplitude)%Q /\
  (noise_of RAND_MAX 0 amplitude == - amplitude)%Q /\
  (noise_of RAND_MAX RAND_MAX amplitude == amplitude)%Q /\
  let g' := snd (calculate_noise RAND_MAX rand amplitude g) in
  rand_calls g' = S (rand_calls g) /\ terrain g' = terrain g /\
  min_height g' = min_height g /\ max_height g' = max_height g.
Proof.
  intros HM Ha Hr.
  assert (HMq : (0 < inject_Z RAND_MAX)%Q) by (apply inject_Z_pos; assumption).
  unfold noise_of.
  split; [|split; [|split]].
  - assert (Hu : (inject_Z r1 / inject_Z RAND_MAX
                  <= inject_Z r2 / inject_Z RAND_MAX)%Q).
    { unfold Qdiv. apply Qmult_le_compat_r; [apply inject_Z_le; assumption|].
      apply Qlt_le_weak, Qinv_lt_0_compat. assumption. }
    nra.
  - change (inject_Z 0) with 0%Q. field. lra.
  - field. lra.
  - cbn. repeat split.
Qed.

Lemma calculate_noise_monotone_witness :
  (noise_of 32767 100 INITIAL_HEIGHT <= noise_of 32767 20000 INITIAL_HEIGHT)%Q.
Proof.
  assert (HM : 0 < 32767) by lia.
  assert (Ha : (0 <= INITIAL_HEIGHT)%Q) by discriminate.
  assert (Hr : 100 <= 20000) by lia.
  destruct (calculate_noise_monotone 32767 sample_rand INITIAL_HEIGHT
              100 20000 initial_globals HM Ha Hr) as (H & _).
  exact H.
Defined.

(** ** Elevation statistics: exact extrema *)

Lemma min_max_body_attained (x y : Z) (g : globals) :
  let g' := min_max_body x y g in
  (min_height g' = min_height g \/ min_height g' = terrain g x y) /\
  (max_height g' = max_height g \/ max_height g' = terrain g x y) /\
  rand_calls g' = rand_calls g.
Proof.
  unfold min_max_body.
  destruct (Qltb (terrain g x y) (min_height g));
    cbn [terrain set_min max_height min_height];
    match goal with |- context [if ?c then _ else _] => destruct c end;
    cbn; auto.
Qed.

Lemma scan_cells_attained (cells : list (Z * Z)) (g : globals) :
  let g' := scan_cells cells g in
  (min_height g' = min_height g \/
   exists c, In c cells /\ min_height g' = terrain g (fst c) (snd c)) /\
  (max_height g' = max_height g \/
   exists c, In c cells /\ max_height g' = terrain g (fst c) (snd c)) /\
  rand_calls g' = rand_calls g.
Proof.
  revert g. induction cells as [|c cells IH]; intros g.
  - simpl. auto.
  - cbn [scan_cells fold_left].
    fold (scan_cells cells (min_max_body (fst c) (snd c) g)).
    destruct (IH (min_max_body (fst c) (snd c) g)) as (Imin & Imax & Ir).
    destruct (min_max_body_attained (fst c) (snd c) g) as (Bmin & Bmax & Br).
    cbv zeta in Bmin, Bmax, Br.
    rewrite min_max_body_terrain in Imin, Imax.
    split; [|split; [|congruence]].
    + destruct Imin as [E | (c' & Hin & E)].
      * destruct Bmin as [E' | E']; [left; congruence|].
        right. exists c. split; [left; reflexivity | congruence].
      * right. exists c'. split; [right; assumption | assumption].
    + destruct Imax as [E | (c' & Hin & E)].
      * destruct Bmax as [E' | E']; [left; congruence|].
        right. exists c. split; [left; reflexivity | congruence].
      * right. exists c'. split; [right; assumption | assumption].
Qed.

(** X4.  On a grid of side at least 1 the recomputed statistics are the
    exact extrema of the grid: [min_height] is below and [max_height] above
    every cell, and each is the value of some cell; the scan changes neither
    the grid nor the position in the random stream, and does not depend on
    the statistics it replaces. *)
Theorem min_max_are_extrema (n : Z) (g : globals) (x y : Z) (lo hi : Q) :
  1 <= n -> 0 <= x < n -> 0 <= y < n ->
  let g' := calculate_min_max_height n g in
  (min_height g' <= terrain g x y <= max_height g')%Q /\
  (exists a b, 0 <= a < n /\ 0 <= b < n /\ min_height g' = terrain g a b) /\
  (exists a b, 0 <= a < n /\ 0 <= b < n /\ max_height g' = terrain g a b) /\
  terrain g' = terrain g /\ rand_calls g' = rand_calls g /\
  calculate_min_max_height n (set_max (set_min g lo) hi) = g'.
Proof.
  intros Hn Hx Hy g'.
  pose proof (calculate_min_max_height_spec n g x y Hx Hy) as Hb.
  cbv zeta in Hb. rewrite calculate_min_max_height_terrain in Hb.
  split; [exact Hb|].
  unfold g'. rewrite calculate_min_max_height_cells.
  set (cells := flat_map (fun x0 => map (pair x0) (for_range 0 n 1))
                         (for_range 0 n 1)).
  set (g0 := set_max (set_min g (terrain g 0 0)) (terrain g 0 0)).
  destruct (scan_cells_attained cells g0) as (Hmin & Hmax & Hr).
  destruct (scan_cells_spec cells g0) as (Ht & _).
  assert (Hcells : forall c, In c cells -> 0 <= fst c < n /\ 0 <= snd c < n).
  { intros c Hc. unfold cells in Hc. apply in_flat_map in Hc.
    destruct Hc as (a & Ha & Hc). apply in_map_iff in Hc.
    destruct Hc as (b & <- & Hb').
    apply for_range_In in Ha; [|lia]. apply for_range_In in Hb'; [|lia].
    destruct Ha as (i & ? & ? & ?). destruct Hb' as (j & ? & ? & ?).
    simpl. lia. }
  split; [|split; [|split; [|split]]].
  - destruct Hmin as [E | (c & Hc & E)].
    + exists 0, 0. split; [lia|]. split; [lia|]. exact E.
    + exists (fst c), (snd c). destruct (Hcells c Hc). auto.
  - destruct Hmax as [E | (c & Hc & E)].
    + exists 0, 0. split; [lia|]. split; [lia|]. exact E.
    + exists (fst c), (snd c). destruct (Hcells c Hc). auto.
  - exact Ht.
  - exact Hr.
  - rewrite calculate_min_max_height_cells. reflexivity.
Qed.

Lemma min_max_are_extrema_witness :
  exists a b, 0 <= a < 3 /\ 0 <= b < 3 /\
    min_height (calculate_min_max_height 3
                  (mkGlobals sample_heights 9 9 O)) = sample_heights a b.
Proof.
  assert (Hn : 1 <= 3) by lia.
  assert (Hx : 0 <= 1 < 3) by lia.
  destruct (min_max_are_extrema 3 (mkGlobals sample_heights 9 9 O) 1 1 0 0
              Hn Hx Hx) as (_ & Hmin & _).
  exact Hmin.
Defined.

(** ** The classifier is monotone *)

Definition Color_eqb (a b : Color) : bool :=
  (red a =? red b) && (green a =? green b) && (blue a =? blue b)
  && (alpha a =? alpha b).

(** The bands in the order of the threshold table. *)
Definition band_rank (c : Color) : Z :=
  if Color_eqb c COLOR_SNOW then 0
  else if Color_eqb c COLOR_ROCK then 1
  else if Color_eqb c COLOR_GRASS then 2
  else if Color_eqb c COLOR_SAND then 3
  else 4.

Lemma band_of_normalized_monotone (t1 t2 : Q) :
  (t1 <= t2)%Q ->
  band_rank (band_of_normalized t1) <= band_rank (band_of_normalized t2).
Proof.
  intros Ht. unfold band_of_normalized.
  destruct (Qltb t1 (20 # 100)) eqn:A1;
    [apply Qltb_lt in A1 | apply Qltb_ge in A1];
  (destruct (Qltb t1 (35 # 100)) eqn:A2;
    [apply Qltb_lt in A2 | apply Qltb_ge in A2]);
  (destruct (Qltb t1 (65 # 100)) eqn:A3;
    [apply Qltb_lt in A3 | apply Qltb_ge in A3]);
  (destruct (Qltb t1 (85 # 100)) eqn:A4;
    [apply Qltb_lt in A4 | apply Qltb_ge in A4]);
  (destruct (Qltb t2 (20 # 100)) eqn:B1;
    [apply Qltb_lt in B1 | apply Qltb_ge in B1]);
  (destruct (Qltb t2 (35 # 100)) eqn:B2;
    [apply Qltb_lt in B2 | apply Qltb_ge in B2]);
  (destruct (Qltb t2 (65 # 100)) eqn:B3;
    [apply Qltb_lt in B3 | apply Qltb_ge in B3]);
  (destruct (Qltb t2 (85 # 100)) eqn:B4;
    [apply Qltb_lt in B4 | apply Qltb_ge in B4]);
  try (exfalso; lra); vm_compute; congruence.
Qed.

(** X5.  For [min < max] the classifier is monotone in the elevation, in
    the order Snow, Rock, Grass, Sand, Water, over all elevations and not
    only those between [min] and [max]: anything at or below [min] is Snow
    and anything at or above [max] is Water. *)
Theorem classify_monotone (e1 e2 d min max : Q) :
  (min < max)%Q -> (e1 <= e2)%Q -> (0 <= d)%Q ->
  band_rank (calculate_height_color e1 max min)
  <= band_rank (calculate_height_color e2 max min) /\
  calculate_height_color (min - d) max min = COLOR_SNOW /\
  calculate_height_color (max + d) max min = COLOR_WATER.
Proof.
  intros Hlt He Hd.
  assert (Hr : (0 < max - min)%Q) by lra.
  rewrite !(height_color_bands _ _ _ Hlt).
  split; [|split].
  - apply band_of_normalized_monotone.
    unfold Qdiv. apply Qmult_le_compat_r; [lra|].
    apply Qlt_le_weak, Qinv_lt_0_compat. assumption.
  - unfold band_of_normalized.
    replace (Qltb ((min - d - min) / (max - min)) (20 # 100)) with true;
      [reflexivity|].
    symmetry. apply Qltb_lt. apply Qlt_shift_div_r; [assumption | lra].
  - assert (H1 : (1 <= (max + d - min) / (max - min))%Q)
      by (apply Qle_shift_div_l; [assumption | lra]).
    unfold band_of_normalized.
    repeat match goal with
           | |- context [Qltb ?a ?b] =>
               replace (Qltb a b) with false
                 by (symmetry; apply Qltb_ge; lra)
           end.
    reflexivity.
Qed.

Lemma classify_monotone_witness :
  band_rank (calculate_height_color 3 10 0)
  <= band_rank (calculate_height_color 7 10 0) /\
  calculate_height_color (0 - 5) 10 0 = COLOR_SNOW /\
  calculate_height_color (10 + 5) 10 0 = COLOR_WATER.
Proof.
  assert (Hlt : (0 < 10)%Q) by reflexivity.
  assert (He : (3 <= 7)%Q) by discriminate.
  assert (Hd : (0 <= 5)%Q) by discriminate.
  exact (classify_monotone 3 7 5 0 10 Hlt He Hd).
Defined.

(** ** Loops that draw one sample per pass *)

Section CellLoopStream.

Variable body : Z * Z -> globals -> globals.
Variable target : Z * Z -> Z * Z.
Variable value : Z * Z -> globals -> Q.

Hypothesis body_terrain : forall c g,
  terrain (body c g)
  = store (terrain g) (fst (target c)) (snd (target c)) (value c g).

Hypothesis body_rand : forall c g, rand_calls (body c g) = S (rand_calls g).

Lemma run_cells_rand (cells : list (Z * Z)) (g : globals) :
  rand_calls (run_cells body cells g)
  = (rand_calls g + List.length cells)%nat.
Proof.
  induction cells as [|c cells IH] using rev_ind; [simpl; lia|].
  rewrite run_cells_snoc, body_rand, IH, length_app. simpl. lia.
Qed.

(** Two runs of the loop stay in step when every written value depends only
    on the position in the stream and on cells of a region [R] on which the
    two grids agree: they then agree on [R] and on every written cell. *)
Lemma run_cells_agree (R : Z -> Z -> Prop) (cells : list (Z * Z))
    (g1 g2 : globals) :
  (forall c h1 h2, In c cells ->
     rand_calls h1 = rand_calls h2 ->
     (forall a b, R a b -> terrain h1 a b = terrain h2 a b) ->
     value c h1 = value c h2) ->
  rand_calls g1 = rand_calls g2 ->
  (forall a b, R a b -> terrain g1 a b = terrain g2 a b) ->
  rand_calls (run_cells body cells g1) = rand_calls (run_cells body cells g2)
  /\
  forall a b,
    R a b \/ (exists c, In c cells /\ target c = (a, b)) ->
    terrain (run_cells body cells g1) a b
    = terrain (run_cells body cells g2) a b.
Proof.
  intros Hval Hr Hagree.
  induction cells as [|c cells IH] using rev_ind.
  - split; [assumption|]. intros a b [Hab | (c & [] & _)]. auto.
  - destruct IH as [IHr IHt].
    { intros c' h1 h2 Hc'. apply Hval, in_or_app. left. assumption. }
    rewrite !run_cells_snoc, !body_rand, !body_terrain.
    split; [congruence|].
    assert (Hv : value c (run_cells body cells g1)
                 = value c (run_cells body cells g2)).
    { apply Hval; [apply in_or_app; right; left; reflexivity | assumption |].
      intros a b Hab. apply IHt. left. assumption. }
    intros a b Hab.
    destruct (Z.eq_dec a (fst (target c))) as [Ea | Ea];
      [destruct (Z.eq_dec b (snd (target c))) as [Eb | Eb]|].
    + subst a b. rewrite !store_same. exact Hv.
    + rewrite !store_other by congruence. apply IHt.
      destruct Hab as [Hab | (c' & Hc' & Et)]; [left; assumption|].
      apply in_app_or in Hc'. destruct Hc' as [Hc' | [<- | []]].
      * right. exists c'. split; assumption.
      * rewrite Et in Eb. simpl in Eb. congruence.
    + rewrite !store_other by congruence. apply IHt.
      destruct Hab as [Hab | (c' & Hc' & Et)]; [left; assumption|].
      apply in_app_or in Hc'. destruct Hc' as [Hc' | [<- | []]].
      * right. exists c'. split; assumption.
      * rewrite Et in Ea. simpl in Ea. congruence.
Qed.

End CellLoopStream.

Lemma square_body_rand (RAND_MAX : Z) (rand : nat -> Z) (length half : Z)
    (amplitude : Q) (c : Z * Z) (g : globals) :
  rand_calls (square_body RAND_MAX rand length half amplitude
                          (fst c) (snd c) g)
  = S (rand_calls g).
Proof. reflexivity. Qed.

Lemma diamond_body_rand (n RAND_MAX : Z) (rand : nat -> Z) (half : Z)
    (amplitude : Q) (c : Z * Z) (g : globals) :
  rand_calls (diamond_body n RAND_MAX rand half amplitude (fst c) (snd c) g)
  = S (rand_calls g).
Proof.
  unfold diamond_body.
  destruct (diamond_sum_count n (terrain g) half (fst c) (snd c)).
  reflexivity.
Qed.

(** ** How many cells a pass visits *)

Lemma count_from_length (n : nat) (a s : Z) :
  List.length (count_from n a s) = n.
Proof.
  revert a. induction n as [|n IH]; intros a; simpl; [|rewrite IH];
    reflexivity.
Qed.

Lemma trip_count_eq (a b s c : Z) :
  0 < s -> 0 <= c ->
  (forall k, 0 <= k -> (a + k * s < b <-> k < c)) ->
  Z.of_nat (trip_count a b s) = c.
Proof.
  intros Hs Hc Hk.
  set (T := Z.of_nat (trip_count a b s)).
  assert (HT : 0 <= T) by (unfold T; lia).
  destruct (Z.lt_trichotomy T c) as [Hlt | [Heq | Hgt]]; [|assumption|].
  - exfalso. apply (Z.lt_irrefl T).
    apply (trip_count_spec a b s T Hs HT). apply Hk; assumption.
  - exfalso. apply (Z.lt_irrefl c).
    apply Hk; [assumption|]. apply (trip_count_spec a b s c Hs Hc).
    assumption.
Qed.

Lemma for_range_length (a b s c : Z) :
  0 < s -> 0 <= c ->
  (forall k, 0 <= k -> (a + k * s < b <-> k < c)) ->
  Z.of_nat (List.length (for_range a b s)) = c.
Proof.
  intros Hs Hc Hk. unfold for_range. rewrite count_from_length.
  apply trip_count_eq; assumption.
Qed.

Lemma flat_map_pairs_length (ys : Z -> list Z) (xs : list Z) (c : nat) :
  (forall x, In x xs -> List.length (ys x) = c) ->
  List.length (flat_map (fun x => map (pair x) (ys x)) xs)
  = (List.length xs * c)%nat.
Proof.
  induction xs as [|x xs IH]; intros Hc; [reflexivity|].
  cbn [flat_map List.length]. rewrite length_app, length_map.
  rewrite (Hc x (or_introl eq_refl)), IH; [lia|].
  intros x' Hx'. apply Hc. right. assumption.
Qed.

Section PassCounts.

Variable n : Z.
Variables length half m : Z.
Hypothesis shape : pass_shape n length half m.
Hypothesis m_nonneg : 0 <= m.

Lemma square_row_length :
  Z.of_nat (List.length (for_range 0 (n - 1) length)) = m.
Proof.
  destruct shape as (Hh & HL & Hn).
  apply for_range_length; [lia | assumption |].
  intros k Hk. rewrite Hn. split; intros H; nia.
Qed.

Lemma square_cells_length :
  Z.of_nat (List.length (square_cells n length)) = m * m.
Proof.
  unfold square_cells.
  rewrite (flat_map_pairs_length _ _
             (List.length (for_range 0 (n - 1) length)))
    by reflexivity.
  rewrite Nat2Z.inj_mul, square_row_length. reflexivity.
Qed.

Lemma diamond_row_even (i : Z) :
  0 <= i ->
  Z.of_nat (List.length
              (for_range (Z.rem (length * i + half) length) n length)) = m.
Proof.
  destruct shape as (Hh & HL & Hn). intros Hi.
  rewrite rem_odd_multiple by assumption.
  apply for_range_length; [lia | assumption |].
  intros k Hk. split; intros H; nia.
Qed.

Lemma diamond_row_odd (i : Z) :
  0 <= i ->
  Z.of_nat (List.length
              (for_range (Z.rem (length * i + half + half) length) n length))
  = m + 1.
Proof.
  destruct shape as (Hh & HL & Hn). intros Hi.
  rewrite rem_even_multiple by assumption.
  apply for_range_length; [lia | lia |].
  intros k Hk. split; intros H; nia.
Qed.

Lemma diamond_rows_length (p : nat) (i0 : Z) :
  0 <= i0 ->
  Z.of_nat
    (List.length
       (flat_map (fun x => map (pair x)
                               (for_range (Z.rem (x + half) length) n length))
                 (count_from (2 * p + 1) (length * i0) half)))
  = m + Z.of_nat p * (2 * m + 1).
Proof.
  destruct shape as (Hh & HL & Hn).
  revert i0. induction p as [|p IH]; intros i0 Hi0.
  - cbn [Nat.mul Nat.add count_from flat_map].
    rewrite app_nil_r, length_map, diamond_row_even by assumption. lia.
  - replace (2 * S p + 1)%nat with (S (S (2 * p + 1))) by lia.
    cbn [count_from flat_map].
    rewrite !length_app, !length_map, !Nat2Z.inj_add.
    rewrite diamond_row_even, diamond_row_odd by assumption.
    replace (length * i0 + half + half) with (length * (i0 + 1)) by lia.
    rewrite IH by lia. lia.
Qed.

Lemma diamond_cells_length :
  Z.of_nat (List.length (diamond_cells n length half)) = 2 * m * (m + 1).
Proof.
  destruct shape as (Hh & HL & Hn).
  assert (HT : Z.of_nat (trip_count 0 n half) = 2 * m + 1).
  { apply trip_count_eq; [lia | lia |].
    intros k Hk. split; intros H; nia. }
  assert (E : for_range 0 n half
              = count_from (2 * Z.to_nat m + 1) (length * 0) half).
  { replace (length * 0) with 0 by lia. unfold for_range. f_equal. lia. }
  unfold diamond_cells. rewrite E, diamond_rows_length by lia. nia.
Qed.

End PassCounts.

(** ** What a generation pass reads, writes and draws *)

Section PassEffects.

Variable n : Z.
Variable RAND_MAX : Z.
Variable rand : nat -> Z.
Variable decay : Q.

Lemma iteration_rand (length half m : Z) (amplitude : Q) (g : globals) :
  pass_shape n length half m -> 0 <= m ->
  Z.of_nat (rand_calls (iteration n RAND_MAX rand length amplitude g))
  = Z.of_nat (rand_calls g) + (2 * m + 1) * (2 * m + 1) - (m + 1) * (m + 1).
Proof.
  intros Hs Hm. unfold iteration. rewrite (quot_half n length half m Hs).
  rewrite diamond_step_cells, square_step_cells.
  rewrite (run_cells_rand _ (diamond_body_rand n RAND_MAX rand half amplitude)).
  rewrite (run_cells_rand _ (square_body_rand RAND_MAX rand length half
                                              amplitude)).
  rewrite !Nat2Z.inj_add.
  rewrite (square_cells_length n length half m Hs Hm).
  rewrite (diamond_cells_length n length half m Hs Hm). ring.
Qed.

Lemma run_passes_rand (j : nat) (m : Z) (amplitude : Q) (g : globals) :
  n - 1 = 2 ^ Z.of_nat j * m -> 0 <= m ->
  Z.of_nat (rand_calls (snd (run_passes n RAND_MAX rand decay j
                                        (2 ^ Z.of_nat j) amplitude g)))
  = Z.of_nat (rand_calls g) + n * n - (m + 1) * (m + 1).
Proof.
  revert m amplitude g.
  induction j as [|j IH]; intros m amplitude g Hn Hm.
  - cbn [run_passes snd]. change (2 ^ Z.of_nat 0) with 1 in Hn.
    replace n with (m + 1) by lia. ring.
  - cbn [run_passes]. rewrite pow2_quot.
    assert (Hs : pass_shape n (2 ^ Z.of_nat (S j)) (2 ^ Z.of_nat j) m).
    { pose proof (pow2_pos j). split; [lia|]. split; [|assumption].
      rewrite Nat2Z.inj_succ, Z.pow_succ_r by lia. reflexivity. }
    rewrite (IH (2 * m)); [| |lia].
    + rewrite (iteration_rand (2 ^ Z.of_nat (S j)) (2 ^ Z.of_nat j) m
                 amplitude g Hs Hm). ring.
    + rewrite Hn, Nat2Z.inj_succ, Z.pow_succ_r by lia. ring.
Qed.

Lemma square_target_inside (length half m : Z) (c : Z * Z) :
  pass_shape n length half m -> In c (square_cells n length) ->
  inside n (fst (square_target half c)) (snd (square_target half c)).
Proof.
  intros Hs Hc. apply (square_cells_In n length half m c Hs) in Hc.
  destruct Hs as (Hh & HL & Hn).
  destruct Hc as (i & j & Hi & Hj & ->). unfold inside. simpl.
  split; nia.
Qed.

Lemma iteration_frame_outside (length half m : Z) (amplitude : Q)
    (g : globals) (a b : Z) :
  pass_shape n length half m -> ~ inside n a b ->
  terrain (iteration n RAND_MAX rand length amplitude g) a b = terrain g a b.
Proof.
  intros Hs Hout. unfold iteration. rewrite (quot_half n length half m Hs).
  rewrite diamond_step_cells, square_step_cells.
  rewrite (run_cells_frame _ (fun c => c)
             (diamond_value n RAND_MAX rand half amplitude)
             (diamond_body_terrain n RAND_MAX rand half amplitude)).
  - apply (run_cells_frame _ (square_target half)
             (square_value RAND_MAX rand length amplitude)
             (square_body_terrain RAND_MAX rand length half amplitude)).
    intros c Hc Heq. apply Hout.
    pose proof (square_target_inside length half m c Hs Hc) as Hin.
    rewrite Heq in Hin. exact Hin.
  - intros c Hc Heq. apply Hout.
    apply (diamond_cells_In n length half m c Hs) in Hc.
    destruct Hc as (Hx & Hy & _). subst c. split; assumption.
Qed.

Lemma run_passes_frame_outside (j : nat) (m : Z) (amplitude : Q)
    (g : globals) (a b : Z) :
  n - 1 = 2 ^ Z.of_nat j * m -> ~ inside n a b ->
  terrain (snd (run_passes n RAND_MAX rand decay j (2 ^ Z.of_nat j)
                           amplitude g)) a b
  = terrain g a b.
Proof.
  revert m amplitude g.
  induction j as [|j IH]; intros m amplitude g Hn Hout; [reflexivity|].
  cbn [run_passes]. rewrite pow2_quot.
  assert (Hs : pass_shape n (2 ^ Z.of_nat (S j)) (2 ^ Z.of_nat j) m).
  { pose proof (pow2_pos j). split; [lia|]. split; [|assumption].
    rewrite Nat2Z.inj_succ, Z.pow_succ_r by lia. reflexivity. }
  rewrite (IH (2 * m)); [| |assumption].
  - apply (iteration_frame_outside (2 ^ Z.of_nat (S j)) (2 ^ Z.of_nat j) m);
      assumption.
  - rewrite Hn, Nat2Z.inj_succ, Z.pow_succ_r by lia. ring.
Qed.

(** Two grids that agree on the coarse cells of a pass, at the same
    position in the stream, agree after the pass on the cells of the next,
    finer grid. *)
Lemma iteration_agree (length half m : Z) (amplitude : Q) (g1 g2 : globals) :
  pass_shape n length half m ->
  rand_calls g1 = rand_calls g2 ->
  (forall a b, coarse_cell n length a b -> terrain g1 a b = terrain g2 a b) ->
  let h1 := iteration n RAND_MAX rand length amplitude g1 in
  let h2 := iteration n RAND_MAX rand length amplitude g2 in
  rand_calls h1 = rand_calls h2 /\
  forall a b, coarse_cell n half a b -> terrain h1 a b = terrain h2 a b.
Proof.
  intros Hs Hr Hagree. unfold iteration.
  rewrite (quot_half n length half m Hs).
  rewrite !diamond_step_cells, !square_step_cells.
  destruct (run_cells_agree _ (square_target half)
              (square_value RAND_MAX rand length amplitude)
              (square_body_terrain RAND_MAX rand length half amplitude)
              (square_body_rand RAND_MAX rand length half amplitude)
              (coarse_cell n length) (square_cells n length) g1 g2)
    as [Sr St]; [|assumption|assumption|].
  { intros c h1 h2 Hc Hr' Hag.
    apply (square_cells_In n length half m c Hs) in Hc.
    destruct Hc as (i & j & Hi & Hj & ->).
    destruct Hs as (Hh & HL & Hn).
    unfold square_value. cbn [fst snd]. rewrite Hr'.
    rewrite !Hag; [reflexivity| | | |].
    - split; [split; nia|]. exists (i + 1), (j + 1). split; lia.
    - split; [split; nia|]. exists i, (j + 1). split; lia.
    - split; [split; nia|]. exists (i + 1), j. split; lia.
    - split; [split; nia|]. exists i, j. split; reflexivity. }
  set (s1 := run_cells _ (square_cells n length) g1) in *.
  set (s2 := run_cells _ (square_cells n length) g2) in *.
  assert (Heven : forall a b, even_cell n length half a b ->
                              terrain s1 a b = terrain s2 a b).
  { intros a b [Hab | ((Hxa & Hyb) & i & j & -> & ->)].
    - apply St. left. assumption.
    - apply St. right. exists (length * i, length * j). split; [|reflexivity].
      apply (square_cells_In n length half m _ Hs).
      destruct Hs as (Hh & HL & Hn).
      exists i, j. repeat split; try reflexivity; nia. }
  destruct (run_cells_agree _ (fun c => c)
              (diamond_value n RAND_MAX rand half amplitude)
              (diamond_body_terrain n RAND_MAX rand half amplitude)
              (diamond_body_rand n RAND_MAX rand half amplitude)
              (even_cell n length half) (diamond_cells n length half) s1 s2)
    as [Dr Dt]; [|assumption|assumption|].
  { intros c h1 h2 Hc Hr' Hag.
    apply (diamond_cells_In n length half m c Hs) in Hc.
    rewrite !(diamond_value_average n RAND_MAX rand length half m amplitude
                c _ Hs Hc).
    rewrite Hr'. f_equal. apply neighbor_average_ext. intros c0 Hc0.
    apply Hag.
    apply (diamond_neighbors_even n length half m (fst c) (snd c));
      [assumption | rewrite <- surjective_pairing; assumption | assumption]. }
  split; [exact Dr|].
  intros a b Hab.
  destruct (fine_cell_cases n length half m a b Hs Hab) as [He | Hd].
  - apply Dt. left. assumption.
  - apply Dt. right. exists (a, b). split; [|reflexivity].
    apply (diamond_cells_In n length half m _ Hs). assumption.
Qed.

Lemma run_passes_agree (j : nat) (m : Z) (amplitude : Q) (g1 g2 : globals) :
  n - 1 = 2 ^ Z.of_nat j * m ->
  rand_calls g1 = rand_calls g2 ->
  (forall a b, coarse_cell n (2 ^ Z.of_nat j) a b ->
               terrain g1 a b = terrain g2 a b) ->
  let r1 := run_passes n RAND_MAX rand decay j (2 ^ Z.of_nat j) amplitude g1 in
  let r2 := run_passes n RAND_MAX rand decay j (2 ^ Z.of_nat j) amplitude g2 in
  rand_calls (snd r1) = rand_calls (snd r2) /\
  forall a b, coarse_cell n 1 a b ->
              terrain (snd r1) a b = terrain (snd r2) a b.
Proof.
  revert m amplitude g1 g2.
  induction j as [|j IH]; intros m amplitude g1 g2 Hn Hr Hag.
  - cbn [run_passes snd]. split; assumption.
  - cbn [run_passes]. rewrite pow2_quot.
    assert (Hs : pass_shape n (2 ^ Z.of_nat (S j)) (2 ^ Z.of_nat j) m).
    { pose proof (pow2_pos j). split; [lia|]. split; [|assumption].
      rewrite Nat2Z.inj_succ, Z.pow_succ_r by lia. reflexivity. }
    destruct (iteration_agree (2 ^ Z.of_nat (S j)) (2 ^ Z.of_nat j) m
                amplitude g1 g2 Hs Hr Hag) as [Ir It].
    apply (IH (2 * m)); [|assumption|assumption].
    rewrite Hn, Nat2Z.inj_succ, Z.pow_succ_r by lia. ring.
Qed.

End PassEffects.

Lemma calculate_min_max_height_rand (n : Z) (g : globals) :
  rand_calls (calculate_min_max_height n g) = rand_calls g.
Proof.
  rewrite calculate_min_max_height_cells.
  destruct (scan_cells_attained
              (flat_map (fun x => map (pair x) (for_range 0 n 1))
                        (for_range 0 n 1))
              (set_max (set_min g (terrain g 0 0)) (terrain g 0 0)))
    as (_ & _ & Hr).
  exact Hr.
Qed.

(** X6.  On a grid of side [N = 2 ^ k + 1] a generation pass, and a whole
    regeneration, call [rand()] exactly [N * N - 4] times: once for every
    cell that is not a corner. *)
Theorem generation_draws (k : nat) (RAND_MAX : Z) (rand : nat -> Z)
    (decay : Q) (g : globals) :
  let n := 2 ^ Z.of_nat k + 1 in
  exists g1 g2,
    generate_terrain n RAND_MAX rand decay g = Some g1 /\
    regenerate n RAND_MAX rand decay g = Some g2 /\
    Z.of_nat (rand_calls g1) = Z.of_nat (rand_calls g) + n * n - 4 /\
    Z.of_nat (rand_calls g2) = Z.of_nat (rand_calls g) + n * n - 4.
Proof.
  intros n.
  assert (Hn : n - 1 = 2 ^ Z.of_nat k * 1) by (unfold n; lia).
  assert (Hgen := generate_terrain_pow2 k RAND_MAX rand decay).
  fold n in Hgen.
  do 2 eexists. split; [apply Hgen|]. split.
  - unfold regenerate. rewrite Hgen. reflexivity.
  - split.
    + rewrite (run_passes_rand n RAND_MAX rand decay k 1 _ _ Hn) by lia.
      simpl. lia.
    + rewrite calculate_min_max_height_rand.
      rewrite (run_passes_rand n RAND_MAX rand decay k 1 _ _ Hn) by lia.
      simpl. lia.
Qed.

(** X7.  On a grid of side [N = 2 ^ k + 1] a generation pass writes inside
    the grid only: every cell outside [0, N - 1] x [0, N - 1] keeps its
    value. *)
Theorem generation_writes_inside (k : nat) (RAND_MAX : Z) (rand : nat -> Z)
    (decay : Q) (g : globals) (a b : Z) :
  let n := 2 ^ Z.of_nat k + 1 in
  ~ (0 <= a < n /\ 0 <= b < n) ->
  exists g', generate_terrain n RAND_MAX rand decay g = Some g' /\
             terrain g' a b = terrain g a b.
Proof.
  intros n Hout.
  assert (Hn : n - 1 = 2 ^ Z.of_nat k * 1) by (unfold n; lia).
  assert (Hgen := generate_terrain_pow2 k RAND_MAX rand decay g).
  fold n in Hgen. eexists. split; [apply Hgen|].
  rewrite (run_passes_frame_outside n RAND_MAX rand decay k 1 _ _ a b Hn);
    [reflexivity|].
  unfold inside. lia.
Qed.

Lemma generation_writes_inside_witness :
  ~ (0 <= 3 < 3 /\ 0 <= 0 < 3) /\
  exists g', generate_terrain 3 32767 sample_rand sample_decay
                              (mkGlobals sample_heights 0 0 O) = Some g' /\
             terrain g' 3 0 = sample_heights 3 0.
Proof.
  assert (Hout : ~ (0 <= 3 < 3 /\ 0 <= 0 < 3)) by lia.
  split; [exact Hout|].
  exact (generation_writes_inside 1 32767 sample_rand sample_decay
           (mkGlobals sample_heights 0 0 O) 3 0 Hout).
Defined.

(** X8.  On a grid of side [N = 2 ^ k + 1] the generated terrain depends
    only on the four corner values and on the random stream: two runs whose
    grids agree on the corners, started at the same position of the stream,
    end with the same value in every cell of the grid.  No stale value of
    another cell, and no cell outside the grid, is ever read. *)
Theorem generation_depends_on_corners (k : nat) (RAND_MAX : Z)
    (rand : nat -> Z) (decay : Q) (g1 g2 : globals) (x y : Z) :
  let n := 2 ^ Z.of_nat k + 1 in
  rand_calls g1 = rand_calls g2 ->
  (forall a b, corner n a b -> terrain g1 a b = terrain g2 a b) ->
  0 <= x < n -> 0 <= y < n ->
  exists h1 h2,
    generate_terrain n RAND_MAX rand decay g1 = Some h1 /\
    generate_terrain n RAND_MAX rand decay g2 = Some h2 /\
    terrain h1 x y = terrain h2 x y /\ rand_calls h1 = rand_calls h2.
Proof.
  intros n Hr Hc Hx Hy.
  pose proof (pow2_pos k) as Hk.
  assert (Hn : n - 1 = 2 ^ Z.of_nat k * 1) by (unfold n; lia).
  assert (Hgen := generate_terrain_pow2 k RAND_MAX rand decay).
  fold n in Hgen.
  do 2 eexists. split; [apply Hgen|]. split; [apply Hgen|].
  destruct (run_passes_agree n RAND_MAX rand decay k 1 INITIAL_HEIGHT
              (set_max (set_min g1 0%Q) 0%Q) (set_max (set_min g2 0%Q) 0%Q)
              Hn Hr) as [Ar At].
  - intros a b ((Ha & Hb) & i & j & Hi & Hj). cbn [terrain set_max set_min].
    apply Hc.
    assert (Hi' : i = 0 \/ i = 1) by nia.
    assert (Hj' : j = 0 \/ j = 1) by nia.
    split; [destruct Hi' as [-> | ->] | destruct Hj' as [-> | ->]]; lia.
  - split; [|exact Ar]. apply At.
    split; [unfold inside; lia|]. exists x, y. lia.
Qed.

(** A grid with arbitrary values away from its corners. *)
Definition sample_stale (x y : Z) : Q :=
  inject_Z (x * (2 - x) * 7 + y * (2 - y) * 5).

Lemma generation_depends_on_corners_witness :
  exists h1 h2,
    generate_terrain 3 32767 sample_rand sample_decay initial_globals
    = Some h1 /\
    generate_terrain 3 32767 sample_rand sample_decay
                     (mkGlobals sample_stale 1 2 O) = Some h2 /\
    terrain h1 1 2 = terrain h2 1 2.
Proof.
  assert (Hr : rand_calls initial_globals
               = rand_calls (mkGlobals sample_stale 1 2 O)) by reflexivity.
  assert (Hc : forall a b, corner (2 ^ Z.of_nat 1 + 1) a b ->
                 terrain initial_globals a b
                 = terrain (mkGlobals sample_stale 1 2 O) a b).
  { intros a b [[-> | ->] [-> | ->]]; reflexivity. }
  assert (Hx : 0 <= 1 < 2 ^ Z.of_nat 1 + 1) by (simpl; lia).
  assert (Hy : 0 <= 2 < 2 ^ Z.of_nat 1 + 1) by (simpl; lia).
  destruct (generation_depends_on_corners 1 32767 sample_rand sample_decay
              initial_globals (mkGlobals sample_stale 1 2 O) 1 2
              Hr Hc Hx Hy) as (h1 & h2 & H1 & H2 & Ht & _).
  exists h1, h2. split; [exact H1|]. split; [exact H2 | exact Ht].
Defined.

(** ** The square step *)

Lemma square_step_value (n RAND_MAX : Z) (rand : nat -> Z)
    (length half m : Z) (amplitude : Q) (g : globals) (c : Z * Z) :
  pass_shape n length half m -> In c (square_cells n length) ->
  exists i : nat,
    terrain (square_step n RAND_MAX rand length half amplitude g)
            (fst c + half) (snd c + half)
    = ((terrain g (fst c) (snd c) + terrain g (fst c + length) (snd c)
        + terrain g (fst c) (snd c + length)
        + terrain g (fst c + length) (snd c + length)) / 4
       + noise_of RAND_MAX (rand i) amplitude)%Q.
Proof.
  intros Hs Hc. rewrite square_step_cells.
  destruct (run_cells_post _ (square_target half)
              (square_value RAND_MAX rand length amplitude)
              (square_body_terrain RAND_MAX rand length half amplitude)
              (fun t => forall a b, coarse_cell n length a b ->
                                    t a b = terrain g a b)
              (fun tc v => exists i : nat,
                 v = ((terrain g (fst tc - half) (snd tc - half)
                       + terrain g (fst tc - half + length) (snd tc - half)
                       + terrain g (fst tc - half) (snd tc - half + length)
                       + terrain g (fst tc - half + length)
                                   (snd tc - half + length)) / 4
                      + noise_of RAND_MAX (rand i) amplitude)%Q)
              (square_cells n length) g) as [_ Hpost].
  - intros c' t v Hc' Hinv a b Hab.
    rewrite store_other; [apply Hinv; assumption|].
    apply (square_target_not_coarse n length half m); assumption.
  - intros c' g0 Hc' Hinv. exists (rand_calls g0).
    apply (square_cells_In n length half m c' Hs) in Hc'.
    destruct Hc' as (i & j & Hi & Hj & ->).
    destruct Hs as (Hh & HL & Hn).
    unfold square_value, square_target. cbn [fst snd].
    replace (length * i + half - half) with (length * i) by lia.
    replace (length * j + half - half) with (length * j) by lia.
    rewrite !Hinv; [reflexivity| | | |].
    + split; [split; nia|]. exists (i + 1), (j + 1). split; lia.
    + split; [split; nia|]. exists i, (j + 1). split; lia.
    + split; [split; nia|]. exists (i + 1), j. split; lia.
    + split; [split; nia|]. exists i, j. split; reflexivity.
  - reflexivity.
  - destruct (Hpost c Hc) as (i & Hi). exists i.
    unfold square_target in Hi. cbn [fst snd] in Hi.
    eapply eq_trans; [exact Hi|].
    replace (fst c + half - half) with (fst c) by lia.
    replace (snd c + half - half) with (snd c) by lia.
    reflexivity.
Qed.

(** X9.  On a grid of side [N = 2 ^ k + 1], in the square step of every
    pass and for every square [(x, y)] the loops visit: the four corners of
    the square and its centre lie inside the grid, and after the whole step
    the centre holds the mean of the four corners, read on the grid as the
    step found it, plus one noise sample. *)
Theorem square_write_is_corner_average (k j : nat) (RAND_MAX : Z)
    (rand : nat -> Z) (amplitude : Q) (g : globals) (x y : Z) :
  let n := 2 ^ Z.of_nat k + 1 in
  let length := 2 ^ Z.of_nat (S j) in
  let half := Z.quot length 2 in
  (j < k)%nat ->
  In (x, y) (square_cells n length) ->
  (0 <= x /\ x + length <= n - 1 /\ 0 <= y /\ y + length <= n - 1) /\
  exists i : nat,
    terrain (square_step n RAND_MAX rand length half amplitude g)
            (x + half) (y + half)
    = ((terrain g x y + terrain g (x + length) y + terrain g x (y + length)
        + terrain g (x + length) (y + length)) / 4
       + noise_of RAND_MAX (rand i) amplitude)%Q.
Proof.
  intros n length half Hjk Hin.
  assert (Hh : half = 2 ^ Z.of_nat j) by apply pow2_quot.
  pose proof (pass_shape_pow2 k j Hjk) as Hs.
  fold n length in Hs. rewrite <- Hh in Hs.
  split.
  - apply (square_cells_In n length half _ (x, y) Hs) in Hin.
    destruct Hin as (i & i' & Hi & Hi' & E). injection E as -> ->.
    destruct Hs as (H1 & HL & Hn). nia.
  - apply (square_step_value n RAND_MAX rand length half _ amplitude g
             (x, y) Hs Hin).
Qed.

Lemma square_write_is_corner_average_witness :
  (0 < 2)%nat /\ In (2, 0) (square_cells 5 2) /\
  exists i : nat,
    terrain (square_step 5 32767 sample_rand 2 1 INITIAL_HEIGHT
                         (mkGlobals sample_heights 0 0 O)) 3 1
    = ((sample_heights 2 0 + sample_heights 4 0 + sample_heights 2 2
        + sample_heights 4 2) / 4
       + noise_of 32767 (sample_rand i) INITIAL_HEIGHT)%Q.
Proof.
  assert (Hj : (0 < 2)%nat) by lia.
  assert (Hin : In (2, 0) (square_cells 5 2))
    by (vm_compute; right; right; left; reflexivity).
  split; [exact Hj|]. split; [exact Hin|].
  destruct (square_write_is_corner_average 2 0 32767 sample_rand
              INITIAL_HEIGHT (mkGlobals sample_heights 0 0 O) 2 0 Hj Hin)
    as (_ & Hv).
  exact Hv.
Defined.

(** ** Every cell is written once *)

Lemma count_from_NoDup (n : nat) (a s : Z) :
  0 < s -> NoDup (count_from n a s).
Proof.
  intros Hs. revert a. induction n as [|n IH]; intros a; simpl;
    constructor; [|apply IH].
  intros Hin. apply count_from_In in Hin. destruct Hin as (k & Hk & E). nia.
Qed.

Lemma for_range_NoDup (a b s : Z) : 0 < s -> NoDup (for_range a b s).
Proof. intros Hs. apply count_from_NoDup. assumption. Qed.

Lemma map_NoDup_injective {A B : Type} (f : A -> B) (l : list A) :
  (forall u v, f u = f v -> u = v) -> NoDup l -> NoDup (map f l).
Proof.
  intros Hf Hl. induction Hl as [|x l Hx Hl IH]; simpl; constructor;
    [|exact IH].
  intros Hin. apply in_map_iff in Hin. destruct Hin as (x' & E & Hx').
  apply Hf in E. subst x'. contradiction.
Qed.

Lemma pairs_NoDup (ys : Z -> list Z) (xs : list Z) :
  NoDup xs -> (forall x, NoDup (ys x)) ->
  NoDup (flat_map (fun x => map (pair x) (ys x)) xs).
Proof.
  intros Hxs Hys. induction Hxs as [|x xs Hx Hxs IH]; [constructor|].
  cbn [flat_map]. apply NoDup_app.
  - apply map_NoDup_injective; [|apply Hys].
    intros u v E. congruence.
  - exact IH.
  - intros c Hc Hc'. apply in_map_iff in Hc. destruct Hc as (y & <- & _).
    apply in_flat_map in Hc'. destruct Hc' as (x' & Hx' & Hc').
    apply in_map_iff in Hc'. destruct Hc' as (y' & E & _).
    apply Hx. congruence.
Qed.

(** X10.  On a grid of side [N = 2 ^ k + 1], within one pass no cell is
    written twice: the centres written by the square step are pairwise
    distinct, the cells written by the diamond step are pairwise distinct,
    and no centre is a cell of the diamond step. *)
Theorem pass_writes_each_cell_once (k j : nat) :
  let n := 2 ^ Z.of_nat k + 1 in
  let length := 2 ^ Z.of_nat (S j) in
  let half := Z.quot length 2 in
  (j < k)%nat ->
  NoDup (map (square_target half) (square_cells n length)) /\
  NoDup (diamond_cells n length half) /\
  forall c, In c (square_cells n length) ->
            ~ In (square_target half c) (diamond_cells n length half).
Proof.
  intros n length half Hjk.
  assert (Hh : half = 2 ^ Z.of_nat j) by apply pow2_quot.
  pose proof (pass_shape_pow2 k j Hjk) as Hs.
  fold n length in Hs. rewrite <- Hh in Hs.
  assert (HL : 0 < length /\ 0 < half) by (destruct Hs; lia).
  split; [|split].
  - apply map_NoDup_injective.
    + intros [u v] [u' v'] E. unfold square_target in E. simpl in E.
      injection E as E1 E2. f_equal; lia.
    + apply pairs_NoDup; [|intros x]; apply for_range_NoDup; lia.
  - apply pairs_NoDup; [|intros x]; apply for_range_NoDup; lia.
  - intros c Hc Hd.
    apply (diamond_cells_In n length half _ _ Hs) in Hd.
    apply (square_cells_In n length half _ c Hs) in Hc.
    destruct Hc as (i & i' & Hi & Hi' & ->).
    apply (diamond_not_even n length half _ _
             (length * i + half) (length * i' + half) Hs Hd);
      [|reflexivity].
    right. split.
    + destruct Hd as (Hx & Hy & _). split; assumption.
    + exists i, i'. split; reflexivity.
Qed.

Lemma pass_writes_each_cell_once_witness :
  (0 < 2)%nat /\ NoDup (diamond_cells 5 2 1).
Proof.
  assert (Hj : (0 < 2)%nat) by lia.
  split; [exact Hj|].
  destruct (pass_writes_each_cell_once 2 0 Hj) as (_ & Hd & _).
  exact Hd.
Defined.

(** ** The centre of the grid *)

Lemma square_cells_single (n length : Z) :
  0 < length -> n - 1 = length -> square_cells n length = [(0, 0)].
Proof.
  intros Hpos Hn. unfold square_cells. rewrite Hn.
  rewrite (for_range_unfold 0 length length Hpos).
  replace (0 <? length) with true by lia.
  rewrite (for_range_unfold (0 + length) length length Hpos).
  replace (0 + length <? length) with false by lia.
  reflexivity.
Qed.

(** X11.  On a grid of side [N = 2 ^ k + 1] with [k >= 1], after a
    regeneration the centre cell holds exactly the first noise sample of the
    pass, drawn at the initial amplitude: the four corners it averages are
    0, and no later step writes it again. *)
Theorem centre_is_first_sample (k : nat) (RAND_MAX : Z) (rand : nat -> Z)
    (decay : Q) (g : globals) :
  (1 <= k)%nat ->
  let n := 2 ^ Z.of_nat k + 1 in
  let c := 2 ^ Z.of_nat (k - 1) in
  exists g',
    regenerate n RAND_MAX rand decay g = Some g' /\
    (terrain g' c c
     == noise_of RAND_MAX (rand (rand_calls g)) INITIAL_HEIGHT)%Q.
Proof.
  intros Hk n c.
  destruct k as [|j]; [lia|].
  assert (Hc : c = 2 ^ Z.of_nat j) by (unfold c; do 2 f_equal; lia).
  clearbody c.
  pose proof (pow2_pos j) as Hj.
  assert (HL : 2 ^ Z.of_nat (S j) = 2 * c)
    by (rewrite Hc, Nat2Z.inj_succ, Z.pow_succ_r by lia; reflexivity).
  assert (Hn : n - 1 = 2 ^ Z.of_nat (S j)) by (unfold n; lia).
  assert (Hgen := generate_terrain_pow2 (S j) RAND_MAX rand decay
                    (reset_canvas_corners n g)).
  fold n in Hgen. unfold regenerate. rewrite Hgen. cbn [option_map].
  eexists. split; [reflexivity|].
  rewrite calculate_min_max_height_terrain.
  cbn [run_passes]. rewrite pow2_quot, <- Hc.
  set (g0 := set_max (set_min (reset_canvas_corners n g) 0%Q) 0%Q).
  assert (Hs : pass_shape n (2 ^ Z.of_nat (S j)) c 1)
    by (split; [lia|]; split; lia).
  rewrite Hc at 1.
  rewrite (run_passes_frame n RAND_MAX rand decay j 2 _ _ c c);
    [|lia|].
  2:{ split; [unfold inside; lia|]. exists 1, 1. lia. }
  unfold iteration. rewrite (quot_half n _ c 1 Hs).
  rewrite (diamond_step_frame n RAND_MAX rand _ c 1 _ _ c c Hs).
  2:{ right. split; [unfold inside; lia|]. exists 0, 0. split; ring. }
  rewrite square_step_cells,
    (square_cells_single n (2 ^ Z.of_nat (S j)) (pow2_pos (S j)) Hn).
  cbn [run_cells fold_left fst snd].
  pose proof (square_body_terrain RAND_MAX rand (2 ^ Z.of_nat (S j)) c
                INITIAL_HEIGHT (0, 0) g0) as Hb.
  cbn [fst snd square_target] in Hb. rewrite Hb.
  replace (0 + c) with c by lia. rewrite store_same.
  unfold square_value. cbn [fst snd].
  assert (Hz : forall a b, corner n a b -> terrain g0 a b = 0%Q).
  { intros a b Hab. unfold g0. cbn [terrain set_max set_min].
    apply reset_canvas_corners_zero. assumption. }
  rewrite !Hz by (split; lia).
  change (rand_calls g0) with (rand_calls g).
  unfold Qdiv. change (/ 4)%Q with (1 # 4)%Q. lra.
Qed.

Lemma centre_is_first_sample_witness :
  (1 <= 2)%nat /\
  exists g',
    regenerate 5 32767 sample_rand sample_decay initial_globals = Some g' /\
    (terrain g' 2 2 == noise_of 32767 (sample_rand 0) INITIAL_HEIGHT)%Q.
Proof.
  assert (Hk : (1 <= 2)%nat) by lia.
  split; [exact Hk|].
  exact (centre_is_first_sample 2 32767 sample_rand sample_decay
           initial_globals Hk).
Defined.

(** ** The fitted view is centred *)



(** ** The scanned bounds are the bounding box *)

(** X13.  On a grid of side at least 1 whose projected coordinates all lie
    within the values the scan starts from (plus and minus [1e9]), the four
    tracked bounds are the exact bounding box: every projected vertex lies
    within them, and each bound is the coordinate of some projected
    vertex. *)
Theorem projected_bounds_exact (n : Z) (cos_rot sin_rot sin_iso : Q)
    (t : Z -> Z -> Q) (x y : Z) :
  let b := projected_bounds n cos_rot sin_rot sin_iso t in
  let P := project_vertex cos_rot sin_rot sin_iso t in
  1 <= n ->
  (forall a c, 0 <= a < n -> 0 <= c < n ->
     (- (1000000000) <= vx (P a c) <= 1000000000 /\
      - (1000000000) <= vy (P a c) <= 1000000000)%Q) ->
  0 <= x < n -> 0 <= y < n ->
  (min_x b <= vx (P x y) <= max_x b /\ min_y b <= vy (P x y) <= max_y b)%Q /\
  (exists a c, 0 <= a < n /\ 0 <= c < n /\ (min_x b == vx (P a c))%Q) /\
  (exists a c, 0 <= a < n /\ 0 <= c < n /\ (max_x b == vx (P a c))%Q) /\
  (exists a c, 0 <= a < n /\ 0 <= c < n /\ (min_y b == vy (P a c))%Q) /\
  (exists a c, 0 <= a < n /\ 0 <= c < n /\ (max_y b == vy (P a c))%Q).
Proof.
  intros b P Hn Hmag Hx Hy.
  pose proof (projected_bounds_spec n cos_rot sin_rot sin_iso t x y Hx Hy)
    as Hin.
  split; [exact Hin|].
  destruct (projected_bounds_attained n cos_rot sin_rot sin_iso t)
    as (A1 & A2 & A3 & A4).
  fold b in A1, A2, A3, A4.
  assert (H00 : 0 <= 0 < n) by lia.
  pose proof (projected_bounds_spec n cos_rot sin_rot sin_iso t 0 0 H00 H00)
    as [B1 B2].
  fold b P in B1, B2.
  destruct (Hmag 0 0 H00 H00) as [M1 M2].
  assert (Hgrid : forall c, In c (grid_cells n) ->
                            0 <= snd c < n /\ 0 <= fst c < n)
    by (intros c Hc; apply grid_cells_In; assumption).
  split; [|split; [|split]].
  - destruct A1 as [E | (c & Hc & E)].
    + exists 0, 0. split; [lia|]. split; [lia|]. rewrite E in *. lra.
    + exists (snd c), (fst c). destruct (Hgrid c Hc).
      split; [assumption|]. split; [assumption|]. rewrite E. reflexivity.
  - destruct A2 as [E | (c & Hc & E)].
    + exists 0, 0. split; [lia|]. split; [lia|]. rewrite E in *. lra.
    + exists (snd c), (fst c). destruct (Hgrid c Hc).
      split; [assumption|]. split; [assumption|]. rewrite E. reflexivity.
  - destruct A3 as [E | (c & Hc & E)].
    + exists 0, 0. split; [lia|]. split; [lia|]. rewrite E in *. lra.
    + exists (snd c), (fst c). destruct (Hgrid c Hc).
      split; [assumption|]. split; [assumption|]. rewrite E. reflexivity.
  - destruct A4 as [E | (c & Hc & E)].
    + exists 0, 0. split; [lia|]. split; [lia|]. rewrite E in *. lra.
    + exists (snd c), (fst c). destruct (Hgrid c Hc).
      split; [assumption|]. split; [assumption|]. rewrite E. reflexivity.
Qed.

Lemma projected_bounds_exact_witness :
  exists a c, 0 <= a < 2 /\ 0 <= c < 2 /\
    (min_x (projected_bounds 2 sample_cos sample_cos sample_sin_iso
                             sample_heights)
     == vx (project_vertex sample_cos sample_cos sample_sin_iso
                           sample_heights a c))%Q.
Proof.
  assert (Hn : 1 <= 2) by lia.
  assert (Hx : 0 <= 1 < 2) by lia.
  assert (Hmag : forall a c, 0 <= a < 2 -> 0 <= c < 2 ->
            (- (1000000000)
             <= vx (project_vertex sample_cos sample_cos sample_sin_iso
                                   sample_heights a c) <= 1000000000 /\
             - (1000000000)
             <= vy (project_vertex sample_cos sample_cos sample_sin_iso
                                   sample_heights a c) <= 1000000000)%Q).
  { intros a c Ha Hc.
    assert (Ea : a = 0 \/ a = 1) by lia.
    assert (Ec : c = 0 \/ c = 1) by lia.
    destruct Ea as [-> | ->], Ec as [-> | ->];
      vm_compute; repeat split; discriminate. }
  destruct (projected_bounds_exact 2 sample_cos sample_cos sample_sin_iso
              sample_heights 1 1 Hn Hmag Hx Hx) as (_ & Hmin & _).
  exact Hmin.
Defined.

(** ** The renderer

    [DrawLineV] is the external drawing call: the model records each call,
    in order, as a [line] with its two end points (already flipped, as the
    program passes them) and its colour. *)

Record line : Type := mkLine {
  line_from : float * float;
  line_to : float * float;
  line_color : Color
}.

Section Render.

Variable ITERATIONS : Z.
Variable cos_rot sin_rot sin_iso : Q.

(** Body of the inner loop of [draw_terrain_3d]. *)
Definition draw_cell (v : view) (g : globals) (x y : Z) (out : list line)
    : list line :=
  let t := terrain g in
  let p1 := screen_vertex cos_rot sin_rot sin_iso v t x y in
  let p2 := screen_vertex cos_rot sin_rot sin_iso v t (x + 1) y in
  let p3 := screen_vertex cos_rot sin_rot sin_iso v t x (y + 1) in
  let p4 := screen_vertex cos_rot sin_rot sin_iso v t (x + 1) (y + 1) in
  let avg_height :=
    ((t x y + t (x + 1)%Z y + t x (y + 1)%Z + t (x + 1)%Z (y + 1)%Z) / 4)%Q in
  let color := calculate_height_color avg_height (max_height g)
                                      (min_height g) in
  let out := out ++ [mkLine p1 p2 color] in
  let out := out ++ [mkLine p1 p3 color] in
  let out := if x =? ITERATIONS - 2
             then out ++ [mkLine p2 p4 color] else out in
  if y =? ITERATIONS - 2 then out ++ [mkLine p3 p4 color] else out.

Definition draw_terrain_3d (v : view) (g : globals) : list line :=
  for_loop 0 (ITERATIONS - 1) 1 (fun y out =>
    for_loop 0 (ITERATIONS - 1) 1 (fun x out => draw_cell v g x y out) out) [].


End Render.

(** *** The lines as edges of the grid *)

Definition edge : Type := ((Z * Z) * (Z * Z))%type.

(** The edges [draw_cell] draws for the cell at [(x, y)]. *)
Definition cell_edges (n x y : Z) : list edge :=
  [((x, y), (x + 1, y)); ((x, y), (x, y + 1))]
  ++ (if x =? n - 2 then [((x + 1, y), (x + 1, y + 1))] else [])
  ++ (if y =? n - 2 then [((x, y + 1), (x + 1, y + 1))] else []).

Definition cell_color (g : globals) (x y : Z) : Color :=
  let t := terrain g in
  calculate_height_color
    ((t x y + t (x + 1)%Z y + t x (y + 1)%Z + t (x + 1)%Z (y + 1)%Z) / 4)%Q
    (max_height g) (min_height g).

Definition edge_line (cos_rot sin_rot sin_iso : Q) (v : view) (g : globals)
    (x y : Z) (e : edge) : line :=
  mkLine (screen_vertex cos_rot sin_rot sin_iso v (terrain g)
                        (fst (fst e)) (snd (fst e)))
         (screen_vertex cos_rot sin_rot sin_iso v (terrain g)
                        (fst (snd e)) (snd (snd e)))
         (cell_color g x y).

(** The edges of all cells, in drawing order; cells are listed as (y, x),
    as the loops visit them. *)
Definition drawn_edges (n : Z) : list edge :=
  flat_map (fun c => cell_edges n (snd c) (fst c)) (grid_cells (n - 1)).

Lemma draw_cell_edges (n : Z) (cos_rot sin_rot sin_iso : Q) (v : view)
    (g : globals) (x y : Z) (out : list line) :
  draw_cell n cos_rot sin_rot sin_iso v g x y out
  = out ++ map (edge_line cos_rot sin_rot sin_iso v g x y)
               (cell_edges n x y).
Proof.
  unfold draw_cell, cell_edges, edge_line, cell_color.
  destruct (x =? n - 2), (y =? n - 2); cbn [map app fst snd];
    rewrite <- ?app_assoc; reflexivity.
Qed.

Lemma fold_left_append {A B : Type} (f : A -> list B -> list B)
    (h : A -> list B) (l : list A) (acc : list B) :
  (forall c out, f c out = out ++ h c) ->
  fold_left (fun out c => f c out) l acc = acc ++ flat_map h l.
Proof.
  intros Hf. revert acc. induction l as [|c l IH]; intros acc.
  - simpl. rewrite app_nil_r. reflexivity.
  - cbn [fold_left flat_map]. rewrite IH, Hf, app_assoc. reflexivity.
Qed.

Lemma draw_terrain_3d_cells (n : Z) (cos_rot sin_rot sin_iso : Q)
    (v : view) (g : globals) :
  draw_terrain_3d n cos_rot sin_rot sin_iso v g
  = flat_map (fun c => map (edge_line cos_rot sin_rot sin_iso v g
                                      (snd c) (fst c))
                           (cell_edges n (snd c) (fst c)))
             (grid_cells (n - 1)).
Proof.
  unfold draw_terrain_3d, for_loop.
  rewrite (nested_fold
             (fun y x out => draw_cell n cos_rot sin_rot sin_iso v g x y out)
             (fun _ => for_range 0 (n - 1) 1)).
  fold (grid_cells (n - 1)).
  rewrite (fold_left_append
             (fun c out => draw_cell n cos_rot sin_rot sin_iso v g
                                     (snd c) (fst c) out)
             (fun c => map (edge_line cos_rot sin_rot sin_iso v g
                                      (snd c) (fst c))
                           (cell_edges n (snd c) (fst c)))).
  - reflexivity.
  - intros c out. apply draw_cell_edges.
Qed.

Lemma draw_terrain_3d_length (n : Z) (cos_rot sin_rot sin_iso : Q)
    (v : view) (g : globals) :
  List.length (draw_terrain_3d n cos_rot sin_rot sin_iso v g)
  = List.length (drawn_edges n).
Proof.
  rewrite draw_terrain_3d_cells. unfold drawn_edges.
  generalize (grid_cells (n - 1)). intros l.
  induction l as [|c l IH]; [reflexivity|].
  cbn [flat_map]. rewrite !length_app, length_map, IH. reflexivity.
Qed.

(** An edge of the grid between two neighbouring vertices, from left to
    right or from one row to the next. *)
Definition unit_edge (n : Z) (e : edge) : Prop :=
  let a := fst (fst e) in
  let b := snd (fst e) in
  let c := fst (snd e) in
  let d := snd (snd e) in
  0 <= a /\ 0 <= b /\ c <= n - 1 /\ d <= n - 1 /\
  ((c = a + 1 /\ d = b) \/ (c = a /\ d = b + 1)).

Lemma cell_edges_In (n x y : Z) (e : edge) :
  In e (cell_edges n x y) <->
  e = ((x, y), (x + 1, y)) \/ e = ((x, y), (x, y + 1)) \/
  (x = n - 2 /\ e = ((x + 1, y), (x + 1, y + 1))) \/
  (y = n - 2 /\ e = ((x, y + 1), (x + 1, y + 1))).
Proof.
  unfold cell_edges.
  destruct (Z.eqb_spec x (n - 2)), (Z.eqb_spec y (n - 2)); simpl;
    intuition congruence.
Qed.

Lemma cell_edges_unit (n x y : Z) (e : edge) :
  0 <= x <= n - 2 -> 0 <= y <= n - 2 ->
  In e (cell_edges n x y) -> unit_edge n e.
Proof.
  intros Hx Hy He. apply cell_edges_In in He. unfold unit_edge.
  destruct He as [-> | [-> | [[_ ->] | [_ ->]]]]; cbn [fst snd]; lia.
Qed.

Lemma drawn_edges_In (n : Z) (e : edge) :
  In e (drawn_edges n) <-> unit_edge n e.
Proof.
  unfold drawn_edges. rewrite in_flat_map. split.
  - intros (c & Hc & He). apply grid_cells_In in Hc.
    apply (cell_edges_unit n (snd c) (fst c)); [lia | lia | assumption].
  - destruct e as [[a b] [c d]]. unfold unit_edge. cbn [fst snd].
    intros (Ha & Hb & Hc & Hd & [[-> ->] | [-> ->]]).
    + destruct (Z.eq_dec b (n - 1)) as [-> | Hne].
      * exists (n - 2, a). split; [apply grid_cells_In; cbn [fst snd]; lia|].
        apply cell_edges_In. cbn [fst snd]. right. right. right.
        split; [reflexivity|].
        replace (n - 2 + 1) with (n - 1) by lia. reflexivity.
      * exists (b, a). split; [apply grid_cells_In; cbn [fst snd]; lia|].
        apply cell_edges_In. left. reflexivity.
    + destruct (Z.eq_dec a (n - 1)) as [-> | Hne].
      * exists (b, n - 2). split; [apply grid_cells_In; cbn [fst snd]; lia|].
        apply cell_edges_In. cbn [fst snd]. right. right. left.
        split; [reflexivity|].
        replace (n - 2 + 1) with (n - 1) by lia. reflexivity.
      * exists (b, a). split; [apply grid_cells_In; cbn [fst snd]; lia|].
        apply cell_edges_In. right. left. reflexivity.
Qed.

Lemma flat_map_NoDup {A B : Type} (f : A -> list B) (owner : B -> A)
    (l : list A) :
  NoDup l ->
  (forall c, In c l -> NoDup (f c)) ->
  (forall c e, In c l -> In e (f c) -> owner e = c) ->
  NoDup (flat_map f l).
Proof.
  intros Hl. induction Hl as [|c l Hc Hl IH]; intros Hf Ho; [constructor|].
  cbn [flat_map]. apply NoDup_app.
  - apply Hf. left. reflexivity.
  - apply IH.
    + intros c' Hc'. apply Hf. right. assumption.
    + intros c' e Hc'. apply Ho. right. assumption.
  - intros e He He'. apply in_flat_map in He'.
    destruct He' as (c' & Hc' & He').
    apply Hc. rewrite <- (Ho c e (or_introl eq_refl) He).
    rewrite (Ho c' e (or_intror Hc') He'). assumption.
Qed.

(** The cell, as (y, x), whose pass of the loops draws an edge. *)
Definition edge_owner (n : Z) (e : edge) : Z * Z :=
  let a := fst (fst e) in
  let b := snd (fst e) in
  if snd (snd e) =? b
  then ((if b =? n - 1 then n - 2 else b), a)
  else (b, (if a =? n - 1 then n - 2 else a)).

Lemma cell_edges_owner (n x y : Z) (e : edge) :
  0 <= x <= n - 2 -> 0 <= y <= n - 2 ->
  In e (cell_edges n x y) -> edge_owner n e = (y, x).
Proof.
  intros Hx Hy He. apply cell_edges_In in He. unfold edge_owner.
  destruct He as [-> | [-> | [[Ex ->] | [Ey ->]]]]; cbn [fst snd];
    settle_tests; f_equal; lia.
Qed.

Lemma cell_edges_NoDup (n x y : Z) : NoDup (cell_edges n x y).
Proof.
  assert (D : forall a b c d : Z * Z, (a, b) = (c, d) -> a = c /\ b = d)
    by (intros a b c d E; inversion E; split; reflexivity).
  unfold cell_edges.
  destruct (x =? n - 2), (y =? n - 2); cbn [app];
    repeat (apply NoDup_cons; [cbn [In]; intros H|]); try apply NoDup_nil;
    repeat (destruct H as [H | H]; [apply D in H; destruct H as [H1 H2];
                                    inversion H1; inversion H2; lia|]);
    exact H.
Qed.

Lemma grid_cells_NoDup (n : Z) : NoDup (grid_cells n).
Proof.
  unfold grid_cells. apply pairs_NoDup; [|intros x]; apply for_range_NoDup;
    lia.
Qed.

Lemma drawn_edges_NoDup (n : Z) : NoDup (drawn_edges n).
Proof.
  unfold drawn_edges.
  apply (flat_map_NoDup _ (edge_owner n)).
  - apply grid_cells_NoDup.
  - intros c _. apply cell_edges_NoDup.
  - intros c e Hc He. apply grid_cells_In in Hc.
    rewrite (cell_edges_owner n (snd c) (fst c) e) by (lia || assumption).
    symmetry. apply surjective_pairing.
Qed.

(** The unit edges listed by kind, to count them. *)
Definition horizontal_edges (n : Z) : list edge :=
  map (fun c => ((snd c, fst c), (snd c + 1, fst c)))
      (flat_map (fun y => map (pair y) (for_range 0 (n - 1) 1))
                (for_range 0 n 1)).

Definition vertical_edges (n : Z) : list edge :=
  map (fun c => ((snd c, fst c), (snd c, fst c + 1)))
      (flat_map (fun y => map (pair y) (for_range 0 n 1))
                (for_range 0 (n - 1) 1)).

Lemma unit_range_length (n : Z) :
  0 <= n -> Z.of_nat (List.length (for_range 0 n 1)) = n.
Proof.
  intros Hn. apply for_range_length; [lia | assumption |].
  intros k Hk. lia.
Qed.

Lemma unit_range_In (n i : Z) : In i (for_range 0 n 1) <-> 0 <= i < n.
Proof.
  rewrite for_range_In by lia. split.
  - intros (k & ? & ? & ?). lia.
  - intros Hi. exists i. lia.
Qed.

Lemma unit_edges_listed (n : Z) :
  1 <= n ->
  NoDup (horizontal_edges n ++ vertical_edges n) /\
  (forall e, unit_edge n e ->
             In e (horizontal_edges n ++ vertical_edges n)) /\
  (forall e, In e (horizontal_edges n ++ vertical_edges n) ->
             unit_edge n e) /\
  Z.of_nat (List.length (horizontal_edges n ++ vertical_edges n))
  = 2 * n * (n - 1).
Proof.
  intros Hn. unfold horizontal_edges, vertical_edges.
  split; [|split; [|split]].
  - apply NoDup_app.
    + apply map_NoDup_injective.
      * intros [u v] [u' v'] E. cbn [fst snd] in E. congruence.
      * apply pairs_NoDup; [|intros x]; apply for_range_NoDup; lia.
    + apply map_NoDup_injective.
      * intros [u v] [u' v'] E. cbn [fst snd] in E. congruence.
      * apply pairs_NoDup; [|intros x]; apply for_range_NoDup; lia.
    + intros e He He'. apply in_map_iff in He, He'.
      destruct He as (c & <- & _). destruct He' as (c' & E & _).
      inversion E. lia.
  - intros [[a b] [c d]]. unfold unit_edge. cbn [fst snd].
    intros (Ha & Hb & Hc & Hd & [[-> ->] | [-> ->]]); apply in_or_app.
    + left. apply in_map_iff. exists (b, a). split; [reflexivity|].
      apply in_flat_map. exists b. split; [apply unit_range_In; lia|].
      apply in_map. apply unit_range_In. lia.
    + right. apply in_map_iff. exists (b, a). split; [reflexivity|].
      apply in_flat_map. exists b. split; [apply unit_range_In; lia|].
      apply in_map. apply unit_range_In. lia.
  - intros e He. apply in_app_or in He.
    destruct He as [He | He]; apply in_map_iff in He;
      destruct He as (c & <- & Hc); apply in_flat_map in Hc;
      destruct Hc as (y & Hy & Hc); apply in_map_iff in Hc;
      destruct Hc as (x & <- & Hx);
      apply unit_range_In in Hx, Hy; unfold unit_edge; cbn [fst snd]; lia.
  - rewrite length_app, !length_map, Nat2Z.inj_add.
    rewrite (flat_map_pairs_length _ _
               (List.length (for_range 0 (n - 1) 1))) by reflexivity.
    rewrite (flat_map_pairs_length _ _
               (List.length (for_range 0 n 1))) by reflexivity.
    rewrite !Nat2Z.inj_mul, !unit_range_length by lia. ring.
Qed.

(** X14.  On a grid of side at least 1, [draw_terrain_3d] draws every edge
    between neighbouring vertices of the grid exactly once, left to right
    or from a row to the next, and nothing else: [2 * N * (N - 1)] lines,
    each from and to the screen positions of the two vertices of its edge.
    (The closing lines of the last column and row are what makes the count
    exact.) *)
Theorem draw_terrain_3d_edges_once (n : Z) (cos_rot sin_rot sin_iso : Q)
    (v : view) (g : globals) :
  1 <= n ->
  draw_terrain_3d n cos_rot sin_rot sin_iso v g
  = flat_map (fun c => map (edge_line cos_rot sin_rot sin_iso v g
                                      (snd c) (fst c))
                           (cell_edges n (snd c) (fst c)))
             (grid_cells (n - 1)) /\
  NoDup (drawn_edges n) /\
  (forall e, In e (drawn_edges n) <-> unit_edge n e) /\
  Z.of_nat (List.length (draw_terrain_3d n cos_rot sin_rot sin_iso v g))
  = 2 * n * (n - 1).
Proof.
  intros Hn.
  split; [apply draw_terrain_3d_cells|].
  split; [apply drawn_edges_NoDup|].
  split; [apply drawn_edges_In|].
  rewrite draw_terrain_3d_length.
  destruct (unit_edges_listed n Hn) as (Hnd & Hin & Hunit & Hlen).
  rewrite <- Hlen. f_equal. apply Nat.le_antisymm.
  - apply NoDup_incl_length; [apply drawn_edges_NoDup|].
    intros e He. apply Hin, drawn_edges_In. assumption.
  - apply NoDup_incl_length; [assumption|].
    intros e He. apply drawn_edges_In, Hunit. assumption.
Qed.

Lemma draw_terrain_3d_edges_once_witness :
  Z.of_nat (List.length
              (draw_terrain_3d 3 sample_cos sample_cos sample_sin_iso
                 (calculate_view_parameters 3 sample_cos sample_cos
                                            sample_sin_iso sample_heights)
                 (mkGlobals sample_heights 0 4 O))) = 12.
Proof.
  assert (Hn : 1 <= 3) by lia.
  destruct (draw_terrain_3d_edges_once 3 sample_cos sample_cos
              sample_sin_iso
              (calculate_view_parameters 3 sample_cos sample_cos
                                         sample_sin_iso sample_heights)
              (mkGlobals sample_heights 0 4 O) Hn) as (_ & _ & _ & Hlen).
  exact Hlen.
Defined.

(** ** A frame after a regeneration *)









(** ** The colours of a frame *)





(** ** The reference axes *)


